(** * SBCK: the packaging script and the optimal-transport core

    Part I embeds [setup.py]: the scan of [sys.argv] for the user's Eigen
    path, the POSIX path helpers it calls, [get_eigen_include] and the
    [ext_modules] declaration.

    Part II models the computational core that [setup.py] only declares as
    build dependencies (sparse histograms, the bipartite transport graph
    and the network-simplex solver) from the design document. *)

From Stdlib Require Import List String Ascii Bool Arith ZArith Lia.
From Stdlib Require Import QArith Qminmax Qround Qabs Lqa Relations Sorted.
Import ListNotations.

Set Implicit Arguments.

(* ===================================================================== *)
(** * Part I: [setup.py] *)
(* ===================================================================== *)

Module Setup.

Local Open Scope string_scope.

(** ** Python string and list primitives used by the script *)

(** A Python [str] is a sequence of code points. It is held here as the
    bytes the interpreter exchanges with the operating system for it
    ([os.fsencode], UTF-8 with [surrogateescape]): a well-formed UTF-8
    sequence is one code point, and a byte that belongs to none is a code
    point of its own. Comparison and concatenation act on the bytes;
    slices count code points. *)

Definition in_range (lo hi : nat) (c : ascii) : bool :=
  Nat.leb lo (nat_of_ascii c) && Nat.leb (nat_of_ascii c) hi.

(** The bytes [80..BF], which continue a sequence. *)
Definition is_cont (c : ascii) : bool := in_range 128 191 c.

(** For a leading byte: the length of its sequence and the range its
    second byte has to be in (no overlong form, no surrogate, nothing
    above [10FFFF]). *)
Definition lead (c : ascii) : option (nat * (nat * nat)) :=
  let b := nat_of_ascii c in
  if in_range 194 223 c then Some (2, (128, 191))%nat
  else if Nat.eqb b 224 then Some (3, (160, 191))%nat
  else if Nat.eqb b 237 then Some (3, (128, 159))%nat
  else if in_range 225 239 c then Some (3, (128, 191))%nat
  else if Nat.eqb b 240 then Some (4, (144, 191))%nat
  else if in_range 241 243 c then Some (4, (128, 191))%nat
  else if Nat.eqb b 244 then Some (4, (128, 143))%nat
  else None.

(** The first [k] bytes of [s] are there and continue a sequence. *)
Fixpoint conts (k : nat) (s : string) : bool :=
  match k, s with
  | O, _ => true
  | S _, EmptyString => false
  | S k', String c r => is_cont c && conts k' r
  end.

(** The number of bytes of the code point that starts with the byte [c]
    followed by [r]. *)
Definition utf8_width (c : ascii) (r : string) : nat :=
  match lead c with
  | Some (w, (lo, hi)) =>
      match r with
      | String d r' => if in_range lo hi d && conts (w - 2) r' then w else 1%nat
      | EmptyString => 1%nat
      end
  | None => 1%nat
  end.

(** The code points of [s], each as its bytes; [pending] bytes of [s]
    still belong to the code point begun before. *)
Fixpoint split_points (pending : nat) (s : string) : list string :=
  match s with
  | EmptyString => []
  | String c r =>
      let left := match pending with
                  | O => (utf8_width c r - 1)%nat
                  | S p => p
                  end in
      match left, split_points left r with
      | S _, g :: gs => String c g :: gs
      | _, gs => String c EmptyString :: gs
      end
  end.

Definition code_points (s : string) : list string := split_points 0 s.

(** The [str] made of the given code points. *)
Definition of_points (l : list string) : string :=
  fold_right append EmptyString l.

(** [s[:k]]: the first [k] characters, fewer when [s] is shorter. *)
Definition py_prefix (k : nat) (s : string) : string :=
  of_points (firstn k (code_points s)).

(** [s[k:]]: what is left after the first [k] characters, empty when [s]
    has at most [k] of them. *)
Definition py_suffix (k : nat) (s : string) : string :=
  of_points (skipn k (code_points s)).

(** [enumerate(l)], counting from [i]. *)
Fixpoint enumerate_from {A : Type} (i : Z) (l : list A) : list (Z * A) :=
  match l with
  | [] => []
  | x :: r => (i, x) :: enumerate_from (i + 1) r
  end.

Definition enumerate {A : Type} (l : list A) : list (Z * A) :=
  enumerate_from 0 l.

(** [del l[i]] for a non-negative index; [None] stands for [IndexError]. *)
Fixpoint del_nat {A : Type} (i : nat) (l : list A) : option (list A) :=
  match l, i with
  | [], _ => None
  | _ :: r, O => Some r
  | x :: r, S i' => option_map (cons x) (del_nat i' r)
  end.

Definition py_del {A : Type} (i : Z) (l : list A) : option (list A) :=
  if (i <? 0)%Z then None else del_nat (Z.to_nat i) l.

(** ** User Eigen path (lines 37-46) *)

(** The test [arg[:5] == "eigen"]. *)
Definition is_eigen_arg (arg : string) : bool :=
  String.eqb (py_prefix 5 arg) "eigen".

(** One turn of the [for] loop over the state
    [(eigen_usr_include, i_eigen)]. *)
Definition scan_step (st : string * Z) (ia : Z * string) : string * Z :=
  let '(i, arg) := ia in
  if is_eigen_arg arg then (py_suffix 6 arg, i) else st.

Definition scan_argv (argv : list string) : string * Z :=
  fold_left scan_step (enumerate argv) ("", (-1)%Z).

(** The whole block: the new [sys.argv] and [eigen_usr_include]. *)
Definition parse_eigen_option (argv : list string)
  : option (list string * string) :=
  let '(eigen_usr_include, i_eigen) := scan_argv argv in
  if (i_eigen >? -1)%Z then
    match py_del i_eigen argv with
    | Some argv' => Some (argv', eigen_usr_include)
    | None => None
    end
  else Some (argv, eigen_usr_include).

(** ** [posixpath] helpers *)

Definition is_sep (c : ascii) : bool := Ascii.eqb c "/"%char.

Definition startswith_sep (s : string) : bool :=
  match s with
  | String c _ => is_sep c
  | EmptyString => false
  end.

Fixpoint endswith_sep (s : string) : bool :=
  match s with
  | EmptyString => false
  | String c EmptyString => is_sep c
  | String _ r => endswith_sep r
  end.

(** One turn of the loop of [posixpath.join]. *)
Definition join_step (path b : string) : string :=
  if startswith_sep b then b
  else if String.eqb path "" || endswith_sep path then path ++ b
  else path ++ "/" ++ b.

(** [os.path.join(a, *p)]. *)
Definition os_path_join (a : string) (p : list string) : string :=
  fold_left join_step p a.

Fixpoint drop_while (f : ascii -> bool) (l : list ascii) : list ascii :=
  match l with
  | [] => []
  | c :: r => if f c then drop_while f r else l
  end.

(** [os.path.dirname(p)]: cut after the last separator, then strip the
    trailing separators unless the head consists of separators only. *)
Definition os_path_dirname (p : string) : string :=
  let head_rev := drop_while (fun c => negb (is_sep c))
                             (rev (list_ascii_of_string p)) in
  let stripped := drop_while is_sep head_rev in
  match stripped with
  | [] => string_of_list_ascii (rev head_rev)
  | _ => string_of_list_ascii (rev stripped)
  end.

(** ** The environment the script reads *)

Record Env : Type := {
  isdir : string -> bool;            (* os.path.isdir *)
  sysconfig_include : string;        (* sysconfig.get_paths()['include'] *)
  environ_HOME : option string       (* os.environ.get("HOME") *)
}.

(** ** [get_eigen_include] (lines 72-89) *)

Definition possible_path (env : Env) (propose_path : string) : list string :=
  let base := [ propose_path;
                os_path_dirname (sysconfig_include env);
                "/usr/include/"; "/usr/local/include/" ] in
  match environ_HOME env with
  | Some home => (base ++ [ os_path_join home [".local/include"] ])%list
  | None => base
  end.

(** The [for path in possible_path] loop with its two early returns. *)
Fixpoint eigen_loop (env : Env) (paths : list string) : string :=
  match paths with
  | [] => ""
  | path :: rest =>
      if isdir env (os_path_join path ["Eigen"]) then path
      else if isdir env (os_path_join path ["eigen3"; "Eigen"])
           then os_path_join path ["eigen3"]
           else eigen_loop env rest
  end.

Definition get_eigen_include (env : Env) (propose_path : string) : string :=
  eigen_loop env (possible_path env propose_path).

(** ** [ext_modules] (lines 148-165) *)

(** An include directory is a plain string or a deferred
    [get_pybind_include(user)] object. *)
Inductive include_dir : Type :=
| IncludePath (p : string)
| get_pybind_include (user : bool).

Record Extension : Type := {
  ext_name : string;
  ext_sources : list string;
  ext_include_dirs : list include_dir;
  ext_language : string;
  ext_depends : list string
}.

(** Adjacent string literals without a comma between them are one literal:
    the [depends] list is written with a single element. *)
Definition ext_modules (env : Env) (here eigen_usr_include : string)
  : list Extension :=
  [ {| ext_name := "SBCK.tools.__tools_cpp";
       ext_sources := [ os_path_join here ["SBCK/tools/src/tools.cpp"] ];
       ext_include_dirs :=
         [ IncludePath (get_eigen_include env eigen_usr_include);
           get_pybind_include false;
           get_pybind_include true ];
       ext_language := "c++";
       ext_depends :=
         [ "SBCK/tools/src/SparseHist.hpp"
           ++ "SBCK/tools/src/NetworkSimplex.hpp"
           ++ "SBCK/tools/src/NetworkSimplexLemon.hpp" ] |} ].

(** ** Predicates used to state the behaviour of the script *)

Definition not_eigen (arg : string) : Prop := is_eigen_arg arg = false.

(** The two probes of one candidate directory. *)
Definition has_Eigen (env : Env) (p : string) : bool :=
  isdir env (os_path_join p ["Eigen"]).

Definition has_eigen3_Eigen (env : Env) (p : string) : bool :=
  isdir env (os_path_join p ["eigen3"; "Eigen"]).

Definition no_eigen_in (env : Env) (p : string) : Prop :=
  has_Eigen env p = false /\ has_eigen3_Eigen env p = false.

(** The sign of the euro, one code point of three bytes. *)
Definition euro : string :=
  String (ascii_of_nat 226)
    (String (ascii_of_nat 130) (String (ascii_of_nat 172) EmptyString)).

(** A file system where only "/usr/include/eigen3/Eigen" and
    "/home/u/.local/include/Eigen" are directories. *)
Definition sample_env : Env :=
  {| isdir := fun p => String.eqb p "/usr/include/eigen3/Eigen"
                       || String.eqb p "/home/u/.local/include/Eigen";
     sysconfig_include := "/opt/py/include/python3.11";
     environ_HOME := Some "/home/u" |}.

End Setup.

(* ===================================================================== *)
(** * Part I, continued: the build command of [setup.py] *)
(* ===================================================================== *)

Module BuildExt.
Import Setup.

Local Open Scope string_scope.

(** ** What the script sees of a compiler *)

(** [compile_ok flag] tells whether [compiler.compile] of the one-line test
    program with [extra_postargs=[flag]] returns; otherwise it raises
    [CompileError]. *)
Record Compiler : Type := {
  compiler_type : string;
  compile_ok : string -> bool
}.

Inductive Raised : Type :=
| RuntimeError (msg : string).

(** ** The class attribute [c_opts] and the list [opts] *)

(** A dict from compiler types to option lists, in insertion order. *)
Definition Dict : Type := list (string * list string).

Fixpoint dict_get (d : Dict) (k : string) : option (list string) :=
  match d with
  | [] => None
  | (k', v) :: r => if String.eqb k' k then Some v else dict_get r k
  end.

(** Mutation in place of the list stored under [k]. *)
Fixpoint dict_update (d : Dict) (k : string)
  (f : list string -> list string) : Dict :=
  match d with
  | [] => []
  | (k', v) :: r =>
      if String.eqb k' k then (k', f v) :: r
      else (k', v) :: dict_update r k f
  end.

(** The objects [build_extensions] reads and writes: the dict of the
    class, the list made by the default of [get] when the key is missing,
    and the flags that were tried on the compiler. *)
Record Store : Type := {
  c_opts : Dict;
  fresh : list string;
  probed : list string
}.

(** [opts] is the list object stored in the dict when the key is there,
    and a new list otherwise. *)
Inductive Ref : Type :=
| InClass (k : string)
| Fresh.

Definition double_quote : string := String "034"%char EmptyString.
Definition backslash : string := String "092"%char EmptyString.

(** The class body (lines 119-125). *)
Definition class_c_opts (platform : string) : Dict :=
  let c_opts := [ ("msvc", ["/EHsc"]); ("unix", []) ] in
  if String.eqb platform "darwin" then
    dict_update c_opts "unix"
      (fun l => (l ++ ["-stdlib=libc++"; "-mmacosx-version-min=10.7"])%list)
  else c_opts.

Definition class_store (platform : string) : Store :=
  {| c_opts := class_c_opts platform; fresh := []; probed := [] |}.

(** [self.c_opts.get(ct, [])]. *)
Definition get_opts (ct : string) (s : Store) : Ref * Store :=
  match dict_get (c_opts s) ct with
  | Some _ => (InClass ct, s)
  | None => (Fresh, {| c_opts := c_opts s; fresh := []; probed := probed s |})
  end.

(** [opts.append(x)]. *)
Definition append (opts : Ref) (x : string) (s : Store) : Store :=
  match opts with
  | InClass k =>
      {| c_opts := dict_update (c_opts s) k (fun l => (l ++ [x])%list);
         fresh := fresh s; probed := probed s |}
  | Fresh =>
      {| c_opts := c_opts s; fresh := (fresh s ++ [x])%list;
         probed := probed s |}
  end.

(** The elements of [opts]. *)
Definition contents (opts : Ref) (s : Store) : list string :=
  match opts with
  | InClass k =>
      match dict_get (c_opts s) k with
      | Some l => l
      | None => []
      end
  | Fresh => fresh s
  end.

(** ** [has_flag] (lines 91-103) *)

(** The compiler is run on the flag; [CompileError] is caught and turned
    into [False]. *)
Definition has_flag (compiler : Compiler) (flagname : string) (s : Store)
  : bool * Store :=
  (compile_ok compiler flagname,
   {| c_opts := c_opts s; fresh := fresh s;
      probed := (probed s ++ [flagname])%list |}).

(** ** [cpp_flag] (lines 105-115) *)

Definition cpp_flag (compiler : Compiler) (s : Store)
  : (string + Raised) * Store :=
  let (has14, s1) := has_flag compiler "-std=c++14" s in
  if has14 then (inl "-std=c++14", s1)
  else
    let (has11, s2) := has_flag compiler "-std=c++11" s1 in
    if has11 then (inl "-std=c++11", s2)
    else (inr (RuntimeError
                 "Unsupported compiler -- at least C++11 support is needed!"),
          s2).

(** ** [BuildExt.build_extensions] (lines 127-140) *)

(** The result is what [build_ext.build_extensions] then finds: every
    extension with its [extra_compile_args]. *)
Definition build_extensions (compiler : Compiler) (version : string)
  (extensions : list Extension) (s : Store)
  : (list (Extension * list string) + Raised) * Store :=
  let ct := compiler_type compiler in
  let (opts, s0) := get_opts ct s in
  let s1 := append opts "-O3" s0 in
  let branch : option Raised * Store :=
    if String.eqb ct "unix" then
      let s2 := append opts
                  ("-DVERSION_INFO=" ++ double_quote ++ version ++ double_quote)
                  s1 in
      match cpp_flag compiler s2 with
      | (inr e, s3) => (Some e, s3)
      | (inl flag, s3) =>
          let s4 := append opts flag s3 in
          let (hidden, s5) := has_flag compiler "-fvisibility=hidden" s4 in
          (None, if hidden then append opts "-fvisibility=hidden" s5 else s5)
      end
    else if String.eqb ct "msvc" then
      (None,
       append opts
         ("/DVERSION_INFO=" ++ backslash ++ double_quote ++ version
          ++ backslash ++ double_quote)
         s1)
    else (None, s1) in
  match branch with
  | (Some e, s') => (inr e, s')
  | (None, s') => (inl (map (fun ext => (ext, contents opts s')) extensions), s')
  end.

(** ** The script from [sys.argv] to [ext_modules] (lines 37-46, 148-165) *)

Definition script_ext_modules (env : Env) (here : string)
  (argv : list string) : option (list string * list Extension) :=
  match parse_eigen_option argv with
  | Some (argv', eigen_usr_include) =>
      Some (argv', ext_modules env here eigen_usr_include)
  | None => None
  end.

(** ** Words used to state the behaviour of the build command *)

(** The options one call on a unix compiler adds to its list. *)
Definition unix_define (version : string) : string :=
  "-DVERSION_INFO=" ++ double_quote ++ version ++ double_quote.

Definition msvc_define (version : string) : string :=
  "/DVERSION_INFO=" ++ backslash ++ double_quote ++ version
  ++ backslash ++ double_quote.

Definition unix_added (compiler : Compiler) (version flag : string)
  : list string :=
  app [ "-O3"; unix_define version; flag ]
      (if compile_ok compiler "-fvisibility=hidden"
       then ["-fvisibility=hidden"] else []).

(** The standard flag a compiler gets, if any. *)
Definition standard_of (compiler : Compiler) : option string :=
  if compile_ok compiler "-std=c++14" then Some "-std=c++14"
  else if compile_ok compiler "-std=c++11" then Some "-std=c++11"
  else None.

(** A compiler of a given type that accepts exactly the listed flags. *)
Definition compiler_accepting (ct : string) (flags : list string) : Compiler :=
  {| compiler_type := ct;
     compile_ok := fun f => existsb (String.eqb f) flags |}.

End BuildExt.

(* ===================================================================== *)
(** * Part II: the optimal-transport core *)
(* ===================================================================== *)

(** The headers [SparseHist.hpp], [NetworkSimplex.hpp] and
    [NetworkSimplexLemon.hpp] are named by [setup.py] but are not part of
    the sources at hand. Every definition of this part is therefore
    modelled from the design document. Reals are exact rationals, so the
    comparisons inside the solver are exact; the tolerance acts where the
    document gives it a rule: the mass test of the graph construction and
    the assembly of the plan. The graph is the complete bipartite graph
    of the dense mode, and the solver follows the five steps of section
    4.4 with the northwest-corner rule as its greedy start. *)

Module Transport.
Import List.

Local Open Scope Q_scope.

(** ** Data model (section 3) *)

(** Modelled from the spec: a bin of a histogram (section 3), declared in
    the missing [SparseHist.hpp]. *)
Record Bin : Type := {
  bin_index : list Z;      (* integer multi-index of the cell *)
  bin_center : list Q;     (* representative centre coordinate *)
  bin_mass : Q             (* probability mass *)
}.

(** Modelled from the spec: a histogram is an ordered collection of bins
    (section 3). *)
Definition SparseHistogram : Type := list Bin.

(** An arc from source bin [i] to sink bin [j]. *)
Definition Arc : Type := (nat * nat)%type.

(** Modelled from the spec: the plan is a sparse mapping from arcs to
    transported mass (section 3). *)
Definition TransportPlan : Type := list (Arc * Q).

(** Modelled from the spec: the error taxonomy of section 7. *)
Inductive Error : Type :=
| EmptyInputError
| MassMismatchError (discrepancy : Q)
| InfeasibleGraphError
| NonConvergenceError (best_flow : list (Arc * Q)).

Inductive result (A : Type) : Type :=
| Ok (a : A)
| Raise (e : Error).

Arguments Raise {A} e.

Definition bind {A B : Type} (r : result A) (k : A -> result B) : result B :=
  match r with
  | Ok a => k a
  | Raise e => Raise e
  end.

Notation "x <- r ;; k" := (bind r (fun x => k))
  (at level 61, r at next level, right associativity).

Definition Qsum (l : list Q) : Q := fold_right Qplus 0 l.

Definition total_mass (h : SparseHistogram) : Q := Qsum (map bin_mass h).

(** Modelled from the spec: the invariants of a histogram (section 3):
    at least one occupied bin, unique bin indices, positive masses that
    sum to 1. *)
Definition valid_histogram (h : SparseHistogram) : Prop :=
  h <> [] /\ NoDup (map bin_index h)
  /\ Forall (fun b => 0 < bin_mass b) h /\ total_mass h == 1.

(** ** SparseHistogram (section 4.1) *)

(** Modelled from the spec: the cell of a sample in the fixed-resolution
    grid (section 3): the floor of each coordinate over the bin width of
    its dimension. *)
Definition cell_of (widths : list Q) (x : list Q) : list Z :=
  map (fun xw => Qfloor (fst xw / snd xw)) (combine x widths).

Definition center_of (widths : list Q) (idx : list Z) : list Q :=
  map (fun kw => (inject_Z (fst kw) + (1 # 2)) * snd kw) (combine idx widths).

Fixpoint lex_compare (a b : list Z) : comparison :=
  match a, b with
  | [], [] => Eq
  | [], _ :: _ => Lt
  | _ :: _, [] => Gt
  | x :: a', y :: b' =>
      match Z.compare x y with
      | Eq => lex_compare a' b'
      | c => c
      end
  end.

(** Modelled from the spec: samples that fall in the same cell add up
    (section 4.1); the cells are kept sorted by index (section 3). *)
Fixpoint add_sample (idx : list Z) (l : list (list Z * positive))
  : list (list Z * positive) :=
  match l with
  | [] => [(idx, 1%positive)]
  | (k, c) :: r =>
      match lex_compare idx k with
      | Eq => (k, Pos.succ c) :: r
      | Lt => (idx, 1%positive) :: l
      | Gt => (k, c) :: add_sample idx r
      end
  end.

Definition occupied_cells (widths : list Q) (samples : list (list Q))
  : list (list Z * positive) :=
  fold_left (fun acc x => add_sample (cell_of widths x) acc) samples [].

Definition make_bin (widths : list Q) (n : positive)
  (kc : list Z * positive) : Bin :=
  {| bin_index := fst kc;
     bin_center := center_of widths (fst kc);
     bin_mass := Zpos (snd kc) # n |}.

(** Modelled from the spec: the construction of a SparseHistogram from a
    sample matrix and a bin-width vector (section 4.1). *)
Definition sparse_histogram (samples : list (list Q)) (widths : list Q)
  : result SparseHistogram :=
  match samples with
  | [] => Raise EmptyInputError
  | _ :: _ =>
      match occupied_cells widths samples with
      | [] => Raise EmptyInputError
      | cells =>
          Ok (map (make_bin widths (Pos.of_nat (List.length samples))) cells)
      end
  end.

(** ** CostModel (section 4.2) *)

Definition CostModel : Type := list Q -> list Q -> Q.

(** Modelled from the spec: the default cost, squared Euclidean distance
    (section 4.2). *)
Definition squared_euclidean : CostModel :=
  fun x y =>
    Qsum (map (fun ab => (fst ab - snd ab) * (fst ab - snd ab)) (combine x y)).

(** Modelled from the spec: the contract of a cost model: non-negative,
    symmetric, and zero between a point and itself. *)
Definition cost_contract (c : CostModel) : Prop :=
  (forall x y, 0 <= c x y) /\ (forall x y, c x y == c y x)
  /\ (forall x, c x x == 0).

(** ** Configuration (section 6) *)

(** Modelled from the spec: the configuration of section 6, in dense
    graph mode. *)
Inductive MassMismatchPolicy : Type := fail | rescale.

Record Config : Type := {
  cost_model : CostModel;
  mass_mismatch_policy : MassMismatchPolicy;
  max_iterations : nat;
  tolerance : Q
}.

(** ** BipartiteTransportGraph (section 4.3) *)

(** Modelled from the spec: the flow graph of section 3: supplies,
    demands and arc costs; an arc carries at most what its source
    supplies. *)
Record FlowGraph : Type := {
  supply : list Q;               (* one source node per bin of A *)
  demand : list Q;               (* one sink node per bin of B *)
  arc_cost : nat -> nat -> Q     (* cost of the arc (S_i, T_j) *)
}.

Definition n_sources (g : FlowGraph) : nat := List.length (supply g).
Definition n_sinks (g : FlowGraph) : nat := List.length (demand g).

Definition no_bin : Bin :=
  {| bin_index := []; bin_center := []; bin_mass := 0 |}.

Definition dense_graph (c : CostModel) (A B : SparseHistogram) (scale : Q)
  : FlowGraph :=
  {| supply := map bin_mass A;
     demand := map (fun b => bin_mass b * scale) B;
     arc_cost := fun i j => c (bin_center (nth i A no_bin))
                              (bin_center (nth j B no_bin)) |}.

(** Modelled from the spec: graph construction in dense mode. When the
    total masses differ beyond the tolerance the policy decides: fail, or
    rescale the masses of B to the total of A. *)
Definition bipartite_transport_graph (cfg : Config) (A B : SparseHistogram)
  : result FlowGraph :=
  let ta := total_mass A in
  let tb := total_mass B in
  if Qlt_le_dec (tolerance cfg) (Qabs (ta - tb)) then
    match mass_mismatch_policy cfg with
    | fail => Raise (MassMismatchError (ta - tb))
    | rescale => Ok (dense_graph (cost_model cfg) A B (ta / tb))
    end
  else Ok (dense_graph (cost_model cfg) A B 1).

(** ** NetworkSimplexSolver (section 4.4) *)

Definition Flow : Type := nat -> nat -> Q.

Inductive Node : Type := Src (i : nat) | Snk (j : nat).

Definition node_eqb (u v : Node) : bool :=
  match u, v with
  | Src i, Src i' => Nat.eqb i i'
  | Snk j, Snk j' => Nat.eqb j j'
  | _, _ => false
  end.

Definition arc_eqb (a b : Arc) : bool :=
  Nat.eqb (fst a) (fst b) && Nat.eqb (snd a) (snd b).

Definition arc_mem (a : Arc) (l : list Arc) : bool := existsb (arc_eqb a) l.

Definition node_mem (v : Node) (l : list Node) : bool :=
  existsb (node_eqb v) l.

(** Lexicographic order on (source index, sink index). *)
Definition arc_ltb (a b : Arc) : bool :=
  Nat.ltb (fst a) (fst b) || (Nat.eqb (fst a) (fst b) && Nat.ltb (snd a) (snd b)).

(** Modelled from the spec: the state of the solver of the missing
    [NetworkSimplex.hpp]: the arcs of the spanning tree and the flow. *)
Record State : Type := {
  tree : list Arc;
  flow : Flow
}.

(** *** Step 1: initialization by the northwest-corner rule *)

(** Modelled from the spec: the northwest-corner rule named in step 1.
    At cell [(i, j)] with [s] left to ship from row [i] and [d] left to
    receive in column [j]: ship [min s d], then leave the exhausted row
    (on a tie the row) unless it is the last; [k] counts the moves left. *)
Fixpoint northwest (k : nat) (i j : nat) (s d : Q) (rows cols : list Q)
  : list (Arc * Q) :=
  let x := Qmin s d in
  ((i, j), x) ::
  match k with
  | O => []
  | S k' =>
      match rows, cols with
      | [], [] => []
      | s' :: rows', [] => northwest k' (S i) j s' (d - x) rows' []
      | [], d' :: cols' => northwest k' i (S j) (s - x) d' [] cols'
      | s' :: rows', d' :: cols' =>
          if Qle_bool s d
          then northwest k' (S i) j s' (d - x) rows' cols
          else northwest k' i (S j) (s - x) d' rows cols'
      end
  end.

Definition northwest_corner (a b : list Q) : list (Arc * Q) :=
  match a, b with
  | s :: rows, d :: cols =>
      northwest (List.length rows + List.length cols) 0 0 s d rows cols
  | _, _ => []
  end.

Definition flow_of (entries : list (Arc * Q)) : Flow :=
  fun i j =>
    match find (fun e => arc_eqb (fst e) (i, j)) entries with
    | Some e => snd e
    | None => 0
    end.

Definition initial_state (g : FlowGraph) : State :=
  let entries := northwest_corner (supply g) (demand g) in
  {| tree := map fst entries; flow := flow_of entries |}.

(** *** Step 2: node potentials by a traversal of the tree *)

(** A visited node, the node it was reached from and its potential. *)
Record Label : Type := {
  l_node : Node;
  l_parent : option Node;
  l_pot : Q
}.

Definition find_label (L : list Label) (v : Node) : option Label :=
  find (fun l => node_eqb (l_node l) v) L.

Definition potential (L : list Label) (v : Node) : Q :=
  match find_label L v with
  | Some l => l_pot l
  | None => 0
  end.

(** Modelled from the spec: step 2. Cross a tree arc with exactly one
    visited end: the other end gets the potential that makes
    [cost(i,j) = potential(i) - potential(j)]. Every node is visited
    once, from the node it was reached from. *)
Definition visit_arc (c : nat -> nat -> Q) (L : list Label) (a : Arc)
  : list Label :=
  let (i, j) := a in
  match find_label L (Src i), find_label L (Snk j) with
  | Some li, None =>
      {| l_node := Snk j; l_parent := Some (Src i);
         l_pot := l_pot li - c i j |} :: L
  | None, Some lj =>
      {| l_node := Src i; l_parent := Some (Snk j);
         l_pot := l_pot lj + c i j |} :: L
  | _, _ => L
  end.

Definition sweep (c : nat -> nat -> Q) (t : list Arc) (L : list Label)
  : list Label :=
  fold_left (visit_arc c) t L.

Fixpoint sweeps (k : nat) (c : nat -> nat -> Q) (t : list Arc)
  (L : list Label) : list Label :=
  match k with
  | O => L
  | S k' => sweeps k' c t (sweep c t L)
  end.

Definition root : Node := Src 0.

Definition root_label : Label :=
  {| l_node := root; l_parent := None; l_pot := 0 |}.

(** The traversal starts at the root [S_0] with potential 0. *)
Definition tree_potentials (c : nat -> nat -> Q) (t : list Arc) : list Label :=
  sweeps (List.length t) c t [root_label].

(** *** Step 3: the entering arc *)

Definition reduced_cost (c : nat -> nat -> Q) (L : list Label) (a : Arc) : Q :=
  c (fst a) (snd a) - (potential L (Src (fst a)) - potential L (Snk (snd a))).

(** All arcs of the dense graph, in lexicographic order. *)
Definition all_arcs (n m : nat) : list Arc := list_prod (seq 0 n) (seq 0 m).

Definition non_tree_arcs (n m : nat) (t : list Arc) : list Arc :=
  filter (fun a => negb (arc_mem a t)) (all_arcs n m).

(** Modelled from the spec: step 3. Scan for the most negative reduced
    cost; the arcs are met in lexicographic order and the first one met
    wins a tie. *)
Fixpoint most_negative (rc : Arc -> Q) (cands : list Arc) (best : option Arc)
  : option Arc :=
  match cands with
  | [] => best
  | a :: r =>
      let bound := match best with
                   | None => 0
                   | Some b => rc b
                   end in
      most_negative rc r (if Qlt_le_dec (rc a) bound then Some a else best)
  end.

Definition entering_arc (g : FlowGraph) (L : list Label) (t : list Arc)
  : option Arc :=
  most_negative (reduced_cost (arc_cost g) L)
                (non_tree_arcs (n_sources g) (n_sinks g) t) None.

(** *** Step 4: the cycle, theta, the leaving arc and the pivot *)

(** The nodes from [v] up to the root. *)
Fixpoint path_to_root (L : list Label) (v : Node) : list Node :=
  match L with
  | [] => []
  | l :: L' =>
      if node_eqb (l_node l) v then
        v :: match l_parent l with
             | Some p => path_to_root L' p
             | None => []
             end
      else path_to_root L' v
  end.

(** The prefix of [p] up to and including its first node on [other]. *)
Fixpoint until_meet (other p : list Node) : list Node :=
  match p with
  | [] => []
  | v :: r => if node_mem v other then [v] else v :: until_meet other r
  end.

(** The prefix of [p] strictly before [z]. *)
Fixpoint before (z : Node) (p : list Node) : list Node :=
  match p with
  | [] => []
  | v :: r => if node_eqb v z then [] else v :: before z r
  end.

(** The tree path from [u] to [v]: up from [u] to the first common
    ancestor, then down to [v]. *)
Definition tree_path (L : list Label) (u v : Node) : list Node :=
  let up := until_meet (path_to_root L v) (path_to_root L u) in
  up ++ rev (before (last up u) (path_to_root L v)).

(** Modelled from the spec: step 4, the cycle closed by the entering arc
    [(i, j)]: [S_i -> T_j -> ... -> S_i]. *)
Definition cycle (L : list Label) (e : Arc) : list Node :=
  Src (fst e) :: tree_path L (Snk (snd e)) (Src (fst e)).

(** The arcs the cycle runs through against their direction. *)
Fixpoint backward_arcs (w : list Node) : list Arc :=
  match w with
  | [] => []
  | u :: r =>
      match u, r with
      | Snk j, Src i :: _ => (i, j) :: backward_arcs r
      | _, _ => backward_arcs r
      end
  end.

Definition add_flow (f : Flow) (a : Arc) (delta : Q) : Flow :=
  fun i j => if arc_eqb a (i, j) then f i j + delta else f i j.

(** Push [theta] over one step of a walk. *)
Definition push (f : Flow) (theta : Q) (u v : Node) : Flow :=
  match u, v with
  | Src i, Snk j => add_flow f (i, j) theta
  | Snk j, Src i => add_flow f (i, j) (- theta)
  | _, _ => f
  end.

Fixpoint push_walk (f : Flow) (theta : Q) (w : list Node) : Flow :=
  match w with
  | [] => f
  | u :: r =>
      match r with
      | [] => f
      | v :: _ => push_walk (push f theta u v) theta r
      end
  end.

Definition flow_at (f : Flow) (a : Arc) : Q := f (fst a) (snd a).

(** Modelled from the spec: step 4, theta is the tightest residual on
    the cycle, the least flow on an arc the cycle runs against. *)
Definition theta_of (f : Flow) (back : list Arc) : Q :=
  match back with
  | [] => 0
  | a :: r => fold_left Qmin (map (flow_at f) r) (flow_at f a)
  end.

(** The least arc in lexicographic order, [dflt] for an empty list. *)
Definition lex_least (dflt : Arc) (l : list Arc) : Arc :=
  match l with
  | [] => dflt
  | a :: r => fold_left (fun b x => if arc_ltb x b then x else b) r a
  end.

(** Modelled from the spec: step 4, the arc whose residual hits zero
    leaves; the lowest index wins a tie. *)
Definition leaving_arc (f : Flow) (e : Arc) (back : list Arc) : Arc :=
  let theta := theta_of f back in
  lex_least e (filter (fun a => Qle_bool (flow_at f a) theta) back).

Definition replace_arc (old new : Arc) (t : list Arc) : list Arc :=
  map (fun a => if arc_eqb a old then new else a) t.

(** Modelled from the spec: step 4, the pivot: theta is pushed round the
    cycle and the leaving arc is replaced by the entering arc. *)
Definition pivot (g : FlowGraph) (L : list Label) (st : State) (e : Arc)
  : State :=
  let w := cycle L e in
  let back := backward_arcs w in
  let theta := theta_of (flow st) back in
  let out := leaving_arc (flow st) e back in
  {| tree := replace_arc out e (tree st);
     flow := push_walk (flow st) theta w |}.

(** *** Step 5: the loop and its iteration cap *)

Definition flow_table (n m : nat) (f : Flow) : list (Arc * Q) :=
  map (fun a => (a, flow_at f a)) (all_arcs n m).

(** Modelled from the spec: step 5. Steps 2 to 4 are repeated until no
    entering arc is found; after [k] pivots the cap is reached and the
    flow at hand is reported in the error. *)
Fixpoint simplex_loop (g : FlowGraph) (k : nat) (st : State) : result State :=
  match k with
  | O => Raise (NonConvergenceError
                  (flow_table (n_sources g) (n_sinks g) (flow st)))
  | S k' =>
      let L := tree_potentials (arc_cost g) (tree st) in
      match entering_arc g L (tree st) with
      | None => Ok st
      | Some e => simplex_loop g k' (pivot g L st e)
      end
  end.

(** Modelled from the spec: the network-simplex solver of section 4.4. *)
Definition network_simplex_solver (cap : nat) (g : FlowGraph) : result State :=
  simplex_loop g cap (initial_state g).

(** ** TransportPlan (section 4.5) *)

(** Modelled from the spec: an entry is kept when it is strictly
    positive (section 3) and not below the tolerance (section 4.5). *)
Definition kept (eps : Q) (q : Q) : bool :=
  Qle_bool eps q && negb (Qle_bool q 0).

(** Modelled from the spec: the plan is assembled from the final flow;
    entries below the tolerance are dropped. *)
Definition transport_plan (eps : Q) (n m : nat) (f : Flow) : TransportPlan :=
  filter (fun e => kept eps (snd e)) (flow_table n m f).

(** [plan[i][j]], zero for an absent entry. *)
Definition plan_at (p : TransportPlan) (i j : nat) : Q := flow_of p i j.

Definition outflow (p : TransportPlan) (i : nat) : Q :=
  Qsum (map snd (filter (fun e => Nat.eqb (fst (fst e)) i) p)).

Definition inflow (p : TransportPlan) (j : nat) : Q :=
  Qsum (map snd (filter (fun e => Nat.eqb (snd (fst e)) j) p)).

Definition total_cost (c : nat -> nat -> Q) (p : TransportPlan) : Q :=
  Qsum (map (fun e => snd e * c (fst (fst e)) (snd (fst e))) p).

(** ** The pipeline (section 2) *)

(** Modelled from the spec: histograms, then the graph, then the solver,
    then the plan and its total cost. *)
Definition solve_transport (cfg : Config) (A B : SparseHistogram)
  : result (TransportPlan * Q) :=
  g <- bipartite_transport_graph cfg A B ;;
  st <- network_simplex_solver (max_iterations cfg) g ;;
  let p := transport_plan (tolerance cfg) (n_sources g) (n_sinks g) (flow st) in
  Ok (p, total_cost (arc_cost g) p).

End Transport.

(* ===================================================================== *)
(** * Invariants and specification predicates of the core *)
(* ===================================================================== *)

Module TransportSpec.
Import List Transport.

Local Open Scope Q_scope.

(** Total outflow of source [i] and total inflow of sink [j] of a flow on
    the [n] by [m] dense graph. *)
Definition rowsum (f : Flow) (m i : nat) : Q :=
  Qsum (map (f i) (seq 0 m)).

Definition colsum (f : Flow) (n j : nat) : Q :=
  Qsum (map (fun i => f i j) (seq 0 n)).

Definition valid_node (n m : nat) (v : Node) : Prop :=
  match v with
  | Src i => (i < n)%nat
  | Snk j => (j < m)%nat
  end.

Definition valid_arc (n m : nat) (a : Arc) : Prop :=
  (fst a < n)%nat /\ (snd a < m)%nat.

Definition all_nodes (n m : nat) : list Node :=
  map Src (seq 0 n) ++ map Snk (seq 0 m).

(** Two nodes joined by an arc of [t], in either direction. *)
Definition adj (t : list Arc) (u v : Node) : Prop :=
  exists i j, In (i, j) t
    /\ ((u = Src i /\ v = Snk j) \/ (u = Snk j /\ v = Src i)).

Definition connected (t : list Arc) : Node -> Node -> Prop :=
  clos_refl_trans Node (adj t).

(** A step between a source and a sink, both of the graph. *)
Definition proper (n m : nat) (u v : Node) : Prop :=
  valid_node n m u /\ valid_node n m v
  /\ match u, v with
     | Src _, Snk _ | Snk _, Src _ => True
     | _, _ => False
     end.

(** Net outflow of a node: what a source ships, minus what a sink
    receives. *)
Definition excess (n m : nat) (f : Flow) (v : Node) : Q :=
  match v with
  | Src i => rowsum f m i
  | Snk j => - colsum f n j
  end.

(** The cost of a step of a walk, negated against the arc. *)
Definition scost (c : nat -> nat -> Q) (u v : Node) : Q :=
  match u, v with
  | Src i, Snk j => c i j
  | Snk j, Src i => - c i j
  | _, _ => 0
  end.

(** A step along a tree arc whose potentials fit its cost. *)
Definition link (c : nat -> nat -> Q) (t : list Arc) (pot : Node -> Q)
  (u v : Node) : Prop :=
  adj t u v /\ pot u - pot v == scost c u v.

(** Consecutive nodes of [w] are related by [R]. *)
Fixpoint chain (R : Node -> Node -> Prop) (w : list Node) : Prop :=
  match w with
  | [] => True
  | u :: r =>
      match r with
      | [] => True
      | v :: _ => R u v /\ chain R r
      end
  end.

(** The label lists a traversal of the tree [t] can build. *)
Inductive labels_ok (c : nat -> nat -> Q) (t : list Arc)
  : list Label -> Prop :=
| ok_root : labels_ok c t [root_label]
| ok_snk : forall L i j li,
    labels_ok c t L -> In (i, j) t ->
    find_label L (Src i) = Some li -> find_label L (Snk j) = None ->
    labels_ok c t ({| l_node := Snk j; l_parent := Some (Src i);
                      l_pot := l_pot li - c i j |} :: L)
| ok_src : forall L i j lj,
    labels_ok c t L -> In (i, j) t ->
    find_label L (Src i) = None -> find_label L (Snk j) = Some lj ->
    labels_ok c t ({| l_node := Src i; l_parent := Some (Snk j);
                      l_pot := l_pot lj + c i j |} :: L).

Definition labelled (L : list Label) (v : Node) : Prop :=
  In v (map l_node L).

(** No arc of the tree has exactly one visited end. *)
Definition stable (c : nat -> nat -> Q) (t : list Arc) (L : list Label)
  : Prop :=
  forall a, In a t -> visit_arc c L a = L.

(** The invariant of the solver state: a spanning tree of [n + m - 1]
    arcs carrying a feasible flow that vanishes off the tree. *)
Record Inv (g : FlowGraph) (st : State) : Prop := {
  inv_pos : (0 < n_sources g)%nat /\ (0 < n_sinks g)%nat;
  inv_valid : Forall (valid_arc (n_sources g) (n_sinks g)) (tree st);
  inv_nodup : NoDup (tree st);
  inv_size : (List.length (tree st) + 1 = n_sources g + n_sinks g)%nat;
  inv_span : forall v, valid_node (n_sources g) (n_sinks g) v ->
                       connected (tree st) root v;
  inv_nonneg : forall i j, 0 <= flow st i j;
  inv_support : forall i j, ~ In (i, j) (tree st) -> flow st i j == 0;
  inv_rows : forall i, (i < n_sources g)%nat ->
                       rowsum (flow st) (n_sinks g) i == nth i (supply g) 0;
  inv_cols : forall j, (j < n_sinks g)%nat ->
                       colsum (flow st) (n_sources g) j == nth j (demand g) 0
}.

(** What the northwest-corner rule ships, started at cell [(i, j)] with
    the supplies [srow] of the rows from [i] on and the demands [dcol] of
    the columns from [j] on. *)
Definition nw_sums (E : list (Arc * Q)) (i j : nat) (srow dcol : list Q)
  : Prop :=
  (forall i', outflow E i'
              == if Nat.ltb i' i then 0 else nth (i' - i) srow 0)
  /\ (forall j', inflow E j'
                 == if Nat.ltb j' j then 0 else nth (j' - j) dcol 0)
  /\ Forall (fun e => 0 <= snd e) E.

(** The cells it visits form a staircase over [nr] more rows and [nc]
    more columns that links all their nodes. *)
Definition nw_shape (E : list (Arc * Q)) (i j nr nc : nat) : Prop :=
  (forall e, In e E ->
     (i <= fst (fst e) <= i + nr)%nat /\ (j <= snd (fst e) <= j + nc)%nat)
  /\ NoDup (map fst E)
  /\ (forall v, valid_node (i + nr + 1) (j + nc + 1) v ->
                (match v with Src i' => i <= i' | Snk j' => j <= j' end)%nat ->
                connected (map fst E) (Src i) v)
  /\ List.length E = (nr + nc + 1)%nat.

(** A transportation problem the solver accepts: both sides non-empty,
    non-negative and of equal total. *)
Definition balanced (g : FlowGraph) : Prop :=
  supply g <> [] /\ demand g <> []
  /\ Forall (fun q => 0 <= q) (supply g)
  /\ Forall (fun q => 0 <= q) (demand g)
  /\ Qsum (supply g) == Qsum (demand g).

(** The optimality condition: no non-tree arc has a negative reduced
    cost. *)
Definition optimal (g : FlowGraph) (st : State) : Prop :=
  forall a,
    In a (non_tree_arcs (n_sources g) (n_sinks g) (tree st)) ->
    0 <= reduced_cost (arc_cost g)
           (tree_potentials (arc_cost g) (tree st)) a.

(** One iteration of steps 2 to 4; an optimal state is left alone. *)
Definition iteration (g : FlowGraph) (st : State) : State :=
  let L := tree_potentials (arc_cost g) (tree st) in
  match entering_arc g L (tree st) with
  | None => st
  | Some e => pivot g L st e
  end.

(** The state after [k] iterations. *)
Fixpoint state_after (g : FlowGraph) (k : nat) (st : State) : State :=
  match k with
  | O => st
  | S k' => state_after g k' (iteration g st)
  end.

(** The mass of bin [i], zero out of range. *)
Definition mass (h : SparseHistogram) (i : nat) : Q :=
  bin_mass (nth i h no_bin).

(** The total cost of a flow on the dense graph. *)
Definition flow_cost (c : nat -> nat -> Q) (n m : nat) (f : Flow) : Q :=
  Qsum (map (fun a => flow_at f a * c (fst a) (snd a)) (all_arcs n m)).

(** The cost of pushing one unit along a walk. *)
Fixpoint walk_cost (c : nat -> nat -> Q) (w : list Node) : Q :=
  match w with
  | [] => 0
  | u :: r =>
      match r with
      | [] => 0
      | v :: _ => scost c u v + walk_cost c r
      end
  end.

(** Strict lexicographic order on cell indices. *)
Definition lex_lt (a b : list Z) : Prop := lex_compare a b = Lt.

(** The cells are kept in strictly increasing index order. *)
Definition sorted_cells (l : list (list Z * positive)) : Prop :=
  StronglySorted lex_lt (map fst l).

(** The number of samples counted in a list of cells. *)
Definition count_sum (l : list (list Z * positive)) : nat :=
  fold_right (fun kc acc => (Pos.to_nat (snd kc) + acc)%nat) 0%nat l.

(** ** Sample inputs *)

Definition config_of (cap : nat) (eps : Q) : Config :=
  {| cost_model := squared_euclidean;
     mass_mismatch_policy := fail;
     max_iterations := cap;
     tolerance := eps |}.

Definition histogram_of (samples : list (list Q)) (widths : list Q)
  : SparseHistogram :=
  match sparse_histogram samples widths with
  | Ok h => h
  | Raise _ => []
  end.

Definition plan_of (r : result (TransportPlan * Q)) : TransportPlan :=
  match r with
  | Ok (p, _) => p
  | Raise _ => []
  end.

Definition cost_of (r : result (TransportPlan * Q)) : Q :=
  match r with
  | Ok (_, c) => c
  | Raise _ => 0
  end.

(** One sample in one cell. *)
Definition one_point : SparseHistogram := histogram_of [[0]] [1].

(** Five samples in three cells, with masses 1/5, 1/5 and 3/5. *)
Definition three_cells : SparseHistogram :=
  histogram_of [[0]; [1]; [2]; [2]; [2]] [1].

(** Four cells of the plane; in index order the northwest-corner tree of
    the histogram against itself is not optimal. *)
Definition four_cells : SparseHistogram :=
  histogram_of [[0; 0]; [0; 10]; [1; 0]; [1; 10]] [1; 1].

Definition four_cells_graph : FlowGraph :=
  dense_graph squared_euclidean four_cells four_cells 1.

(** The plan and the cost of a run with every fraction in lowest terms. *)
Definition reduced (r : result (TransportPlan * Q))
  : option (list (Arc * Q) * Q) :=
  match r with
  | Ok (p, c) => Some (map (fun e => (fst e, Qred (snd e))) p, Qred c)
  | Raise _ => None
  end.

Definition quarter_run : result (TransportPlan * Q) :=
  solve_transport (config_of 10 (1 # 4)) one_point three_cells.

End TransportSpec.

(* ===================================================================== *)
(** * Facts about [setup.py] *)
(* ===================================================================== *)

Module SetupFacts.
Import Setup.

Local Open Scope string_scope.

(** ** Code points *)

Lemma of_points_split s : forall pending,
  of_points (split_points pending s) = s.
Proof.
  induction s as [|c r IH]; intros pending; [reflexivity|].
  cbn [split_points].
  destruct (match pending with
            | O => (utf8_width c r - 1)%nat
            | S p => p
            end) as [|n].
  - cbn [of_points fold_right append]. fold (of_points (split_points 0 r)).
    now rewrite IH.
  - specialize (IH (S n)).
    destruct (split_points (S n) r) as [|g gs].
    + cbn [of_points fold_right append] in *. now rewrite IH.
    + cbn [of_points fold_right append] in *. now rewrite IH.
Qed.

(** Encoding the code points of a string gives the string back. *)
Lemma code_points_of s : of_points (code_points s) = s.
Proof. apply of_points_split. Qed.

Lemma of_points_app l l' :
  of_points (l ++ l')%list = of_points l ++ of_points l'.
Proof.
  induction l as [|g l IH]; [reflexivity|].
  cbn [app of_points fold_right]. fold (of_points (l ++ l')%list).
  fold (of_points l). rewrite IH.
  clear. induction g as [|c g IH]; [reflexivity|]. cbn [append]. now rewrite IH.
Qed.

(** [s[:k] + s[k:] == s]. *)
Lemma slice_round_trip k s : py_prefix k s ++ py_suffix k s = s.
Proof.
  unfold py_prefix, py_suffix.
  now rewrite <- of_points_app, firstn_skipn, code_points_of.
Qed.

(** A byte below 128 is a code point by itself. *)
Lemma code_points_ascii c r :
  (nat_of_ascii c < 128)%nat ->
  code_points (String c r) = String c "" :: code_points r.
Proof.
  intros H. unfold code_points. cbn [split_points].
  assert (W : utf8_width c r = 1%nat).
  { unfold utf8_width, lead, in_range.
    repeat match goal with
           | |- context [Nat.leb ?a ?b] =>
               destruct (Nat.leb_spec a b); try lia
           | |- context [Nat.eqb ?a ?b] =>
               destruct (Nat.eqb_spec a b); try lia
           end; reflexivity. }
  rewrite W. reflexivity.
Qed.

(** A slice that begins after a code point of three bytes: the sign of
    the euro is one character. *)
Lemma suffix_counts_code_points :
  py_suffix 6 ("eigen" ++ euro ++ "/path") = "/path"
  /\ py_prefix 6 ("eigen" ++ euro ++ "/path") = "eigen" ++ euro.
Proof. split; reflexivity. Qed.

Section Scan.

Lemma scan_step_skip st i arg :
  not_eigen arg -> scan_step st (i, arg) = st.
Proof. unfold not_eigen, scan_step. intros ->. reflexivity. Qed.

Lemma scan_no_match l : forall i st,
  Forall not_eigen l ->
  fold_left scan_step (enumerate_from i l) st = st.
Proof.
  induction l as [|a l IH]; intros i st H; cbn [enumerate_from fold_left].
  - reflexivity.
  - inversion H as [|? ? Ha Hl]; subst.
    rewrite (scan_step_skip st i Ha). now apply IH.
Qed.

Lemma scan_last_match pre : forall i st a post,
  is_eigen_arg a = true -> Forall not_eigen post ->
  fold_left scan_step (enumerate_from i (pre ++ a :: post)%list) st
  = (py_suffix 6 a, (i + Z.of_nat (List.length pre))%Z).
Proof.
  induction pre as [|b pre IH]; intros i st a post Ha Hpost.
  - cbn [app enumerate_from fold_left List.length].
    unfold scan_step at 2. rewrite Ha.
    rewrite scan_no_match by assumption.
    f_equal. cbn. lia.
  - cbn [app enumerate_from fold_left List.length].
    rewrite IH by assumption. f_equal. lia.
Qed.

Lemma del_nat_middle {A : Type} (pre : list A) a post :
  del_nat (List.length pre) (pre ++ a :: post)%list = Some (pre ++ post)%list.
Proof.
  induction pre as [|b pre IH]; simpl.
  - reflexivity.
  - rewrite IH. reflexivity.
Qed.

Lemma py_del_middle {A : Type} (pre : list A) a post :
  py_del (Z.of_nat (List.length pre)) (pre ++ a :: post)%list = Some (pre ++ post)%list.
Proof.
  unfold py_del.
  destruct (Z.ltb_spec (Z.of_nat (List.length pre)) 0) as [H|_]; [lia|].
  rewrite Nat2Z.id. apply del_nat_middle.
Qed.

End Scan.

(** C8. Every argument of [sys.argv] whose first five characters are
    "eigen" overwrites [eigen_usr_include] with its characters from index 6
    on, so the last such argument wins; that argument alone is deleted
    from [sys.argv] and earlier matching arguments stay. Without a match
    [sys.argv] is unchanged and [eigen_usr_include] is empty.
    "eigen=PATH" gives PATH, "eigen" and "eigen=" give the empty string. *)
Theorem eigen_option_parsing (argv : list string) :
  (Forall not_eigen argv -> parse_eigen_option argv = Some (argv, ""))
  /\ (forall pre a post,
        argv = (pre ++ a :: post)%list ->
        is_eigen_arg a = true -> Forall not_eigen post ->
        parse_eigen_option argv = Some ((pre ++ post)%list, py_suffix 6 a))
  /\ (forall path,
        is_eigen_arg ("eigen=" ++ path) = true
        /\ py_suffix 6 ("eigen=" ++ path) = path)
  /\ (is_eigen_arg "eigen" = true /\ py_suffix 6 "eigen" = "")
  /\ py_suffix 6 "eigen=" = "".
Proof.
  split; [|split; [|split; [|split]]].
  - intros H. unfold parse_eigen_option, scan_argv, enumerate.
    rewrite scan_no_match by assumption. reflexivity.
  - intros pre a post -> Ha Hpost.
    unfold parse_eigen_option, scan_argv, enumerate.
    rewrite scan_last_match by assumption.
    rewrite Z.add_0_l.
    destruct (Z.gtb_spec (Z.of_nat (List.length pre)) (-1)) as [_|H]; [|lia].
    rewrite py_del_middle. reflexivity.
  - intros path. split; [reflexivity|].
    change (py_suffix 6 ("eigen=" ++ path)) with (of_points (code_points path)).
    apply code_points_of.
  - split; reflexivity.
  - reflexivity.
Qed.

(** A run with two matching arguments: the second one sets the path and is
    removed, the first one stays in [sys.argv]. The sixth character of the
    second one takes three bytes and is skipped whole. *)
Lemma eigen_option_parsing_witness :
  parse_eigen_option
    ["setup.py"; "eigen=/usr/a"; "build_ext";
     "eigen" ++ euro ++ "/opt/eigen"; "install"]
  = Some (["setup.py"; "eigen=/usr/a"; "build_ext"; "install"], "/opt/eigen").
Proof.
  apply (proj1 (proj2 (eigen_option_parsing
           ["setup.py"; "eigen=/usr/a"; "build_ext";
            "eigen" ++ euro ++ "/opt/eigen"; "install"]))
           ["setup.py"; "eigen=/usr/a"; "build_ext"]
           ("eigen" ++ euro ++ "/opt/eigen") ["install"]).
  - reflexivity.
  - reflexivity.
  - repeat constructor.
Defined.

(** C9. The [depends] list of the only extension has one element, the
    three header paths run together into a single string, and so differs
    from the list of the three paths. *)
Theorem depends_collapse (env : Env) (here eigen_usr_include : string) :
  exists ext,
    ext_modules env here eigen_usr_include = [ext]
    /\ ext_depends ext =
       ["SBCK/tools/src/SparseHist.hppSBCK/tools/src/NetworkSimplex.hppSBCK/tools/src/NetworkSimplexLemon.hpp"]
    /\ List.length (ext_depends ext) = 1%nat
    /\ ext_depends ext <>
       ["SBCK/tools/src/SparseHist.hpp"; "SBCK/tools/src/NetworkSimplex.hpp";
        "SBCK/tools/src/NetworkSimplexLemon.hpp"].
Proof.
  eexists. split; [reflexivity|].
  cbn [ext_depends]. repeat split; try reflexivity.
  intros H. discriminate H.
Qed.

Section Resolution.

Variable env : Env.

Lemma eigen_loop_skip pre rest :
  Forall (no_eigen_in env) pre ->
  eigen_loop env (pre ++ rest)%list = eigen_loop env rest.
Proof.
  induction 1 as [|q pre [H1 H2] _ IH]; [reflexivity|].
  unfold has_Eigen, has_eigen3_Eigen in H1, H2.
  cbn [app eigen_loop]. rewrite H1, H2. exact IH.
Qed.

End Resolution.

(** C10. [get_eigen_include] walks the candidates [propose_path], the
    parent of the sysconfig include directory, "/usr/include/",
    "/usr/local/include/" and, only when HOME is set, HOME joined with
    ".local/include", in that order. The first candidate [p] with a
    directory [p/Eigen] is returned as [p]; failing that, with a directory
    [p/eigen3/Eigen], [p/eigen3] is returned; a candidate is left only when
    both probes fail. When every candidate fails the result is the empty
    string. The function is total. *)
Theorem eigen_include_resolution (env : Env) (propose_path : string) :
  possible_path env propose_path
  = ([ propose_path; os_path_dirname (sysconfig_include env);
       "/usr/include/"; "/usr/local/include/" ]
     ++ match environ_HOME env with
        | Some home => [ os_path_join home [".local/include"] ]
        | None => []
        end)%list
  /\ (forall pre p post,
        possible_path env propose_path = (pre ++ p :: post)%list ->
        Forall (no_eigen_in env) pre ->
        (has_Eigen env p = true -> get_eigen_include env propose_path = p)
        /\ (has_Eigen env p = false -> has_eigen3_Eigen env p = true ->
            get_eigen_include env propose_path = os_path_join p ["eigen3"]))
  /\ (Forall (no_eigen_in env) (possible_path env propose_path) ->
      get_eigen_include env propose_path = "").
Proof.
  split; [|split].
  - unfold possible_path. destruct (environ_HOME env); reflexivity.
  - intros pre p post E Hpre. unfold get_eigen_include. rewrite E.
    rewrite eigen_loop_skip by assumption.
    unfold has_Eigen, has_eigen3_Eigen. cbn [eigen_loop].
    split.
    + intros ->. reflexivity.
    + intros -> ->. reflexivity.
  - intros H. unfold get_eigen_include.
    rewrite <- (app_nil_r (possible_path env propose_path)).
    rewrite eigen_loop_skip by assumption. reflexivity.
Qed.

Lemma eigen_include_resolution_witness :
  get_eigen_include sample_env "/tmp/e" = "/usr/include/eigen3".
Proof.
  apply (proj1 (proj2 (eigen_include_resolution sample_env "/tmp/e"))
           ["/tmp/e"; "/opt/py/include"] "/usr/include/"
           ["/usr/local/include/"; "/home/u/.local/include"]).
  - reflexivity.
  - repeat constructor.
  - reflexivity.
  - reflexivity.
Defined.

End SetupFacts.

(* ===================================================================== *)
(** * Facts about the optimal-transport core *)
(* ===================================================================== *)

Module TransportFacts.
Import List Transport TransportSpec.

Unset Implicit Arguments.

Local Open Scope Q_scope.

(** ** Equality tests *)

Lemma node_eqb_eq u v : node_eqb u v = true <-> u = v.
Proof.
  destruct u as [i|j], v as [i'|j']; simpl; split; intros H;
    try discriminate; try (apply Nat.eqb_eq in H; now subst);
    inversion H; apply Nat.eqb_refl.
Qed.

Lemma node_eqb_refl u : node_eqb u u = true.
Proof. now apply node_eqb_eq. Qed.

Lemma node_eqb_neq u v : node_eqb u v = false <-> u <> v.
Proof.
  split.
  - intros H E. apply node_eqb_eq in E. congruence.
  - intros H. destruct (node_eqb u v) eqn:E; [|reflexivity].
    apply node_eqb_eq in E. contradiction.
Qed.

Lemma arc_eqb_eq (a b : Arc) : arc_eqb a b = true <-> a = b.
Proof.
  destruct a as [i j], b as [i' j']. unfold arc_eqb. simpl.
  rewrite andb_true_iff, !Nat.eqb_eq. split.
  - intros [-> ->]. reflexivity.
  - intros H. inversion H. auto.
Qed.

Lemma arc_eqb_refl (a : Arc) : arc_eqb a a = true.
Proof. now apply arc_eqb_eq. Qed.

Lemma arc_eqb_neq (a b : Arc) : arc_eqb a b = false <-> a <> b.
Proof.
  split.
  - intros H E. apply arc_eqb_eq in E. congruence.
  - intros H. destruct (arc_eqb a b) eqn:E; [|reflexivity].
    apply arc_eqb_eq in E. contradiction.
Qed.

Lemma arc_mem_In a l : arc_mem a l = true <-> In a l.
Proof.
  unfold arc_mem. rewrite existsb_exists. split.
  - intros [x [Hx E]]. apply arc_eqb_eq in E. now subst.
  - intros H. exists a. split; [assumption|apply arc_eqb_refl].
Qed.

Lemma arc_mem_not_In a l : arc_mem a l = false <-> ~ In a l.
Proof.
  rewrite <- arc_mem_In. destruct (arc_mem a l); split; congruence.
Qed.

Lemma node_mem_In v l : node_mem v l = true <-> In v l.
Proof.
  unfold node_mem. rewrite existsb_exists. split.
  - intros [x [Hx E]]. apply node_eqb_eq in E. now subst.
  - intros H. exists v. split; [assumption|apply node_eqb_refl].
Qed.

Lemma node_mem_not_In v l : node_mem v l = false <-> ~ In v l.
Proof.
  rewrite <- node_mem_In. destruct (node_mem v l); split; congruence.
Qed.

Lemma arc_dec (a b : Arc) : {a = b} + {a <> b}.
Proof. decide equality; apply Nat.eq_dec. Qed.

Lemma node_dec (u v : Node) : {u = v} + {u <> v}.
Proof. decide equality; apply Nat.eq_dec. Qed.

(** ** Sums of rationals *)

Lemma Qsum_app l l' : Qsum (l ++ l') == Qsum l + Qsum l'.
Proof.
  induction l as [|x l IH]; simpl.
  - lra.
  - rewrite IH. lra.
Qed.

Lemma Qsum_map_ext {A : Type} (f g : A -> Q) l :
  (forall x, In x l -> f x == g x) -> Qsum (map f l) == Qsum (map g l).
Proof.
  induction l as [|x l IH]; intros H; simpl.
  - reflexivity.
  - rewrite (H x (or_introl eq_refl)), IH.
    + reflexivity.
    + intros y Hy. apply H. now right.
Qed.

Lemma Qsum_map_plus {A : Type} (f g : A -> Q) l :
  Qsum (map (fun x => f x + g x) l) == Qsum (map f l) + Qsum (map g l).
Proof.
  induction l as [|x l IH]; simpl.
  - lra.
  - rewrite IH. lra.
Qed.

Lemma Qsum_map_zero {A : Type} (f : A -> Q) l :
  (forall x, In x l -> f x == 0) -> Qsum (map f l) == 0.
Proof.
  induction l as [|x l IH]; intros H; simpl.
  - reflexivity.
  - rewrite (H x (or_introl eq_refl)), IH.
    + lra.
    + intros y Hy. apply H. now right.
Qed.

Lemma Qsum_nonneg l : Forall (fun q => 0 <= q) l -> 0 <= Qsum l.
Proof.
  induction 1 as [|x l Hx _ IH]; simpl; lra.
Qed.

(** A sum with a single non-zero term. *)
Lemma Qsum_map_single (l : list nat) (x0 : nat) (delta : Q) :
  NoDup l ->
  Qsum (map (fun x => if Nat.eqb x0 x then delta else 0) l)
  == if in_dec Nat.eq_dec x0 l then delta else 0.
Proof.
  induction 1 as [|x l Hx Hl IH]; simpl.
  - reflexivity.
  - rewrite IH. destruct (Nat.eq_dec x x0) as [->|Hne].
    + rewrite Nat.eqb_refl.
      destruct (in_dec Nat.eq_dec x0 l); [contradiction|lra].
    + assert (Nat.eqb x0 x = false) as -> by (apply Nat.eqb_neq; congruence).
      destruct (in_dec Nat.eq_dec x0 l); lra.
Qed.

Lemma Qsum_seq_single (k x0 : nat) (delta : Q) :
  Qsum (map (fun x => if Nat.eqb x0 x then delta else 0) (seq 0 k))
  == if Nat.ltb x0 k then delta else 0.
Proof.
  rewrite Qsum_map_single by apply seq_NoDup.
  destruct (in_dec Nat.eq_dec x0 (seq 0 k)) as [H|H];
    rewrite in_seq in H; destruct (Nat.ltb_spec x0 k); try reflexivity; lia.
Qed.

(** ** Row and column sums under a change of one arc *)

Lemma add_flow_val f a delta i j :
  add_flow f a delta i j == f i j + (if arc_eqb a (i, j) then delta else 0).
Proof. unfold add_flow. destruct (arc_eqb a (i, j)); lra. Qed.

Lemma rowsum_add_flow f i0 j0 delta m i :
  rowsum (add_flow f (i0, j0) delta) m i
  == rowsum f m i
     + (if Nat.eqb i0 i && Nat.ltb j0 m then delta else 0).
Proof.
  unfold rowsum.
  rewrite (Qsum_map_ext _ (fun j => f i j
            + (if Nat.eqb j0 j then (if Nat.eqb i0 i then delta else 0) else 0))).
  - rewrite Qsum_map_plus, Qsum_seq_single.
    apply Qplus_comp; [reflexivity|].
    destruct (Nat.eqb i0 i), (Nat.ltb j0 m); reflexivity.
  - intros j _. rewrite add_flow_val. unfold arc_eqb. cbn [fst snd].
    destruct (Nat.eqb i0 i), (Nat.eqb j0 j); cbn [andb]; lra.
Qed.

Lemma colsum_add_flow f i0 j0 delta n j :
  colsum (add_flow f (i0, j0) delta) n j
  == colsum f n j
     + (if Nat.eqb j0 j && Nat.ltb i0 n then delta else 0).
Proof.
  unfold colsum.
  rewrite (Qsum_map_ext _ (fun i => f i j
            + (if Nat.eqb i0 i then (if Nat.eqb j0 j then delta else 0) else 0))).
  - rewrite Qsum_map_plus, Qsum_seq_single.
    apply Qplus_comp; [reflexivity|].
    destruct (Nat.eqb j0 j), (Nat.ltb i0 n); reflexivity.
  - intros i _. rewrite add_flow_val. unfold arc_eqb. cbn [fst snd].
    destruct (Nat.eqb i0 i), (Nat.eqb j0 j); cbn [andb]; lra.
Qed.


(** ** Pushing flow along a walk *)

Lemma last_indep {A : Type} (r : list A) (u v : A) :
  r <> [] -> last r u = last r v.
Proof.
  induction r as [|y r IH]; intros H; [contradiction|].
  destruct r as [|z r']; [reflexivity|].
  change (last (z :: r') u = last (z :: r') v).
  apply IH. discriminate.
Qed.

Lemma last_cons {A : Type} (r : list A) (u v : A) :
  last (v :: r) u = last r v.
Proof.
  destruct r as [|y r]; [reflexivity|].
  change (last (y :: r) u = last (y :: r) v).
  apply last_indep. discriminate.
Qed.

Section Walks.

Variables n m : nat.

Lemma push_excess f theta u v x :
  proper n m u v ->
  excess n m (push f theta u v) x
  == excess n m f x
     + (if node_eqb x u then theta else 0)
     - (if node_eqb x v then theta else 0).
Proof.
  intros (Hu & Hv & Hk).
  destruct u as [i0|j0], v as [i1|j1]; try contradiction;
    simpl in Hu, Hv; destruct x as [i|j]; simpl.
  - rewrite rowsum_add_flow.
    assert (Nat.ltb j1 m = true) as -> by (apply Nat.ltb_lt; lia).
    rewrite andb_true_r, (Nat.eqb_sym i i0).
    destruct (Nat.eqb i0 i); lra.
  - rewrite colsum_add_flow.
    assert (Nat.ltb i0 n = true) as -> by (apply Nat.ltb_lt; lia).
    rewrite andb_true_r, (Nat.eqb_sym j j1).
    destruct (Nat.eqb j1 j); lra.
  - rewrite rowsum_add_flow.
    assert (Nat.ltb j0 m = true) as -> by (apply Nat.ltb_lt; lia).
    rewrite andb_true_r, (Nat.eqb_sym i i1).
    destruct (Nat.eqb i1 i); lra.
  - rewrite colsum_add_flow.
    assert (Nat.ltb i1 n = true) as -> by (apply Nat.ltb_lt; lia).
    rewrite andb_true_r, (Nat.eqb_sym j j0).
    destruct (Nat.eqb j0 j); lra.
Qed.

(** Along a walk only the two ends gain or lose. *)
Lemma push_walk_excess theta x : forall r u f,
  chain (proper n m) (u :: r) ->
  excess n m (push_walk f theta (u :: r)) x
  == excess n m f x
     + (if node_eqb x u then theta else 0)
     - (if node_eqb x (last r u) then theta else 0).
Proof.
  induction r as [|v r IH]; intros u f H.
  - simpl. destruct (node_eqb x u); lra.
  - destruct H as [Huv Hr].
    change (push_walk f theta (u :: v :: r))
      with (push_walk (push f theta u v) theta (v :: r)).
    rewrite (IH v (push f theta u v) Hr).
    rewrite (push_excess f theta u v x Huv).
    rewrite (last_cons r u v). lra.
Qed.

Lemma backward_arcs_nodes w i j :
  In (i, j) (backward_arcs w) -> In (Src i) w /\ In (Snk j) w.
Proof.
  induction w as [|u r IH]; simpl; [tauto|].
  destruct u as [i0|j0].
  - intros H. destruct (IH H). tauto.
  - destruct r as [|[i1|j1] r'].
    + simpl. tauto.
    + intros [E|H].
      * inversion E; subst. split; [right; now left|now left].
      * destruct (IH H). tauto.
    + intros H. destruct (IH H). tauto.
Qed.

(** An arc with an end off the walk keeps its flow. *)
Lemma push_walk_untouched theta i j : forall w f,
  ~ In (Src i) w \/ ~ In (Snk j) w ->
  push_walk f theta w i j == f i j.
Proof.
  induction w as [|u r IH]; intros f H; [reflexivity|].
  destruct r as [|v r']; [reflexivity|].
  change (push_walk f theta (u :: v :: r'))
    with (push_walk (push f theta u v) theta (v :: r')).
  rewrite IH.
  - destruct u as [i0|j0], v as [i1|j1]; simpl; try reflexivity;
      rewrite add_flow_val.
    + destruct (arc_eqb (i0, j1) (i, j)) eqn:E; [|lra].
      apply arc_eqb_eq in E. inversion E; subst.
      exfalso. destruct H as [H|H]; apply H; simpl; auto.
    + destruct (arc_eqb (i1, j0) (i, j)) eqn:E; [|lra].
      apply arc_eqb_eq in E. inversion E; subst.
      exfalso. destruct H as [H|H]; apply H; simpl; auto.
  - destruct H as [H|H]; [left|right]; intros K; apply H; now right.
Qed.

(** An arc that is no step of the walk keeps its flow. *)
Lemma push_walk_off (t : list Arc) theta i j : forall w f,
  chain (adj t) w -> ~ In (i, j) t ->
  push_walk f theta w i j == f i j.
Proof.
  induction w as [|u r IH]; intros f H Hn; [reflexivity|].
  destruct r as [|v r']; [reflexivity|].
  destruct H as [Huv Hr].
  change (push_walk f theta (u :: v :: r'))
    with (push_walk (push f theta u v) theta (v :: r')).
  rewrite (IH _ Hr Hn).
  destruct Huv as (i0 & j0 & Hin & [[-> ->]|[-> ->]]); simpl;
    rewrite add_flow_val;
    (destruct (arc_eqb (i0, j0) (i, j)) eqn:E; [|lra]);
    apply arc_eqb_eq in E; inversion E; subst; contradiction.
Qed.

(** On a walk without repeated nodes an arc loses at most [theta], and
    only when the walk runs through it backwards. *)
Lemma push_walk_lower theta i j : forall w f,
  NoDup w -> 0 <= theta ->
  f i j - (if arc_mem (i, j) (backward_arcs w) then theta else 0)
  <= push_walk f theta w i j.
Proof.
  induction w as [|u r IH]; intros f Hnd Hth.
  - simpl. lra.
  - destruct r as [|v r'].
    + simpl. destruct u; simpl; lra.
    + change (push_walk f theta (u :: v :: r'))
        with (push_walk (push f theta u v) theta (v :: r')).
      inversion Hnd as [|? ? Hu Hr]; subst.
      specialize (IH (push f theta u v) Hr Hth).
      destruct u as [i0|j0].
      * change (backward_arcs (Src i0 :: v :: r'))
          with (backward_arcs (v :: r')).
        destruct v as [i1|j1]; simpl push in *; [exact IH|].
        rewrite add_flow_val in IH.
        destruct (arc_eqb (i0, j1) (i, j));
          destruct (arc_mem (i, j) (backward_arcs (Snk j1 :: r'))); lra.
      * destruct v as [i1|j1].
        -- change (backward_arcs (Snk j0 :: Src i1 :: r'))
             with ((i1, j0) :: backward_arcs (Src i1 :: r')).
           simpl push in IH |- *. rewrite add_flow_val in IH.
           cbn [arc_mem existsb].
           destruct (arc_eqb (i1, j0) (i, j)) eqn:E.
           ++ apply arc_eqb_eq in E. inversion E; subst.
              rewrite arc_eqb_refl. cbn [orb].
              destruct (arc_mem (i, j) (backward_arcs (Src i :: r'))) eqn:M.
              ** apply arc_mem_In, backward_arcs_nodes in M.
                 destruct M as [_ M]. contradiction.
              ** lra.
           ++ assert (arc_eqb (i, j) (i1, j0) = false) as ->.
              { apply arc_eqb_neq. apply arc_eqb_neq in E. congruence. }
              cbn [orb]. fold (arc_mem (i, j) (backward_arcs (Src i1 :: r'))).
              destruct (arc_mem (i, j) (backward_arcs (Src i1 :: r'))); lra.
        -- change (backward_arcs (Snk j0 :: Snk j1 :: r'))
             with (backward_arcs (Snk j1 :: r')).
           exact IH.
Qed.

(** On a walk without repeated nodes a backward arc loses exactly
    [theta]. *)
Lemma push_walk_backward theta i j : forall w f,
  NoDup w -> In (i, j) (backward_arcs w) ->
  push_walk f theta w i j == f i j - theta.
Proof.
  induction w as [|u r IH]; intros f Hnd Hin; [contradiction|].
  destruct r as [|v r'].
  - destruct u; contradiction.
  - change (push_walk f theta (u :: v :: r'))
      with (push_walk (push f theta u v) theta (v :: r')).
    inversion Hnd as [|? ? Hu Hr]; subst.
    destruct u as [i0|j0].
    + change (backward_arcs (Src i0 :: v :: r'))
        with (backward_arcs (v :: r')) in Hin.
      rewrite (IH _ Hr Hin).
      destruct v as [i1|j1]; simpl push; [reflexivity|].
      rewrite add_flow_val.
      destruct (arc_eqb (i0, j1) (i, j)) eqn:E; [|lra].
      apply arc_eqb_eq in E. inversion E; subst.
      apply backward_arcs_nodes in Hin. destruct Hin as [Hin _].
      contradiction.
    + destruct v as [i1|j1].
      * change (backward_arcs (Snk j0 :: Src i1 :: r'))
          with ((i1, j0) :: backward_arcs (Src i1 :: r')) in Hin.
        destruct (arc_dec (i1, j0) (i, j)) as [E|E].
        -- inversion E; subst.
           rewrite push_walk_untouched by (right; exact Hu).
           simpl push. rewrite add_flow_val, arc_eqb_refl. lra.
        -- destruct Hin as [Hin|Hin]; [contradiction|].
           rewrite (IH _ Hr Hin). simpl push. rewrite add_flow_val.
           apply arc_eqb_neq in E. rewrite E. lra.
      * change (backward_arcs (Snk j0 :: Snk j1 :: r'))
          with (backward_arcs (Snk j1 :: r')) in Hin.
        rewrite (IH _ Hr Hin). reflexivity.
Qed.

End Walks.


(** ** Theta and the leaving arc *)

Lemma fold_min_le_init l : forall x, fold_left Qmin l x <= x.
Proof.
  induction l as [|y l IH]; intros x; simpl.
  - lra.
  - specialize (IH (Qmin x y)). pose proof (Q.le_min_l x y). lra.
Qed.

Lemma fold_min_le_elem l : forall x y, In y l -> fold_left Qmin l x <= y.
Proof.
  induction l as [|z l IH]; intros x y H; simpl; [contradiction|].
  destruct H as [->|H].
  - pose proof (fold_min_le_init l (Qmin x y)).
    pose proof (Q.le_min_r x y). lra.
  - now apply IH.
Qed.

Lemma fold_min_attained l : forall x,
  fold_left Qmin l x == x \/ exists y, In y l /\ fold_left Qmin l x == y.
Proof.
  induction l as [|z l IH]; intros x; simpl.
  - left. reflexivity.
  - destruct (IH (Qmin x z)) as [E|(y & Hy & E)].
    + destruct (Q.min_spec x z) as [[_ M]|[_ M]].
      * left. rewrite E. exact M.
      * right. exists z. split; [now left|]. rewrite E. exact M.
    + right. exists y. auto.
Qed.

Lemma theta_le f back b :
  In b back -> theta_of f back <= flow_at f b.
Proof.
  destruct back as [|a r]; [contradiction|].
  intros [->|H]; unfold theta_of.
  - apply fold_min_le_init.
  - apply fold_min_le_elem. now apply in_map.
Qed.

Lemma theta_attained f back :
  back <> [] -> exists b, In b back /\ theta_of f back == flow_at f b.
Proof.
  destruct back as [|a r]; [congruence|]. intros _. unfold theta_of.
  destruct (fold_min_attained (map (flow_at f) r) (flow_at f a))
    as [E|(y & Hy & E)].
  - exists a. split; [now left|exact E].
  - apply in_map_iff in Hy. destruct Hy as (b & <- & Hb).
    exists b. split; [now right|exact E].
Qed.

Lemma theta_nonneg f back :
  (forall i j, 0 <= f i j) -> 0 <= theta_of f back.
Proof.
  intros H. destruct back as [|a r].
  - simpl. lra.
  - destruct (theta_attained f (a :: r)) as (b & _ & E); [discriminate|].
    rewrite E. apply H.
Qed.

Lemma lex_fold_In r : forall a,
  In (fold_left (fun b x => if arc_ltb x b then x else b) r a) (a :: r).
Proof.
  induction r as [|y r IH]; intros a; simpl.
  - now left.
  - destruct (IH (if arc_ltb y a then y else a)) as [E|H].
    + rewrite <- E. destruct (arc_ltb y a); auto.
    + auto.
Qed.

Lemma lex_least_In dflt l : l <> [] -> In (lex_least dflt l) l.
Proof.
  destruct l as [|a r]; [congruence|]. intros _. apply lex_fold_In.
Qed.

(** The leaving arc is a backward arc of the cycle whose flow is
    [theta]. *)
Lemma leaving_arc_spec f e back :
  back <> [] ->
  In (leaving_arc f e back) back
  /\ flow_at f (leaving_arc f e back) == theta_of f back.
Proof.
  intros Hne. unfold leaving_arc.
  set (th := theta_of f back).
  set (cands := filter (fun a => Qle_bool (flow_at f a) th) back).
  assert (Hc : cands <> []).
  { destruct (theta_attained f back Hne) as (b & Hb & E).
    assert (In b cands).
    { apply filter_In. split; [assumption|].
      apply Qle_bool_iff. fold th in E. rewrite E. lra. }
    intros K. rewrite K in H. contradiction. }
  pose proof (lex_least_In e cands Hc) as H.
  apply filter_In in H. destruct H as [Hin Hle].
  split; [assumption|].
  apply Qle_bool_iff in Hle.
  pose proof (theta_le f back _ Hin). fold th in H. lra.
Qed.

(** ** Replacing the leaving arc by the entering arc *)

Lemma replace_arc_length old new t :
  List.length (replace_arc old new t) = List.length t.
Proof. apply length_map. Qed.

Lemma replace_arc_In old new t a :
  In a (replace_arc old new t)
  <-> (a = new /\ In old t) \/ (In a t /\ a <> old).
Proof.
  unfold replace_arc. rewrite in_map_iff. split.
  - intros (x & E & Hx). destruct (arc_eqb x old) eqn:K.
    + apply arc_eqb_eq in K. subst. now left.
    + apply arc_eqb_neq in K. subst. now right.
  - intros [[-> H]|[H K]].
    + exists old. rewrite arc_eqb_refl. auto.
    + exists a. apply arc_eqb_neq in K. rewrite K. auto.
Qed.

Lemma replace_arc_NoDup old new t :
  NoDup t -> ~ In new t -> NoDup (replace_arc old new t).
Proof.
  induction 1 as [|x t Hx Hnd IH]; intros Hn; simpl.
  - constructor.
  - constructor.
    + rewrite replace_arc_In. intros [[E H]|[H K]].
      * destruct (arc_eqb x old) eqn:Q.
        -- apply arc_eqb_eq in Q. subst. contradiction.
        -- apply Hn. left. congruence.
      * destruct (arc_eqb x old) eqn:Q.
        -- apply Hn. right. congruence.
        -- contradiction.
    + apply IH. intros K. apply Hn. now right.
Qed.


(** ** Chains *)

Lemma chain_impl_in (R R' : Node -> Node -> Prop) w :
  (forall u v, In u w -> In v w -> R u v -> R' u v) ->
  chain R w -> chain R' w.
Proof.
  induction w as [|u r IH]; intros H C; [exact I|].
  destruct r as [|v r']; [exact I|].
  destruct C as [Huv C]. split.
  - apply H; simpl; auto.
  - apply IH; [|exact C]. intros x y Hx Hy. apply H; now right.
Qed.

Lemma chain_app_l (R : Node -> Node -> Prop) a : forall b,
  chain R (a ++ b) -> chain R a.
Proof.
  induction a as [|u a IH]; intros b C; [exact I|].
  destruct a as [|v a']; [exact I|].
  destruct C as [Huv C]. split; [exact Huv|]. exact (IH b C).
Qed.

Lemma chain_join (R : Node -> Node -> Prop) a z b :
  chain R (a ++ [z]) -> chain R (z :: b) -> chain R (a ++ z :: b).
Proof.
  induction a as [|u a IH]; intros Ca Cb; [exact Cb|].
  destruct a as [|v a'].
  - destruct Ca as [Huz _]. split; [exact Huz|exact Cb].
  - destruct Ca as [Huv Ca]. split; [exact Huv|]. exact (IH Ca Cb).
Qed.

Lemma chain_snoc (R : Node -> Node -> Prop) a y z :
  chain R (a ++ [y]) -> R y z -> chain R ((a ++ [y]) ++ [z]).
Proof.
  intros Ca Hyz. rewrite <- app_assoc. simpl.
  apply chain_join; [exact Ca|]. split; [exact Hyz|exact I].
Qed.

Lemma chain_rev (R : Node -> Node -> Prop) :
  (forall u v, R u v -> R v u) ->
  forall w, chain R w -> chain R (rev w).
Proof.
  intros Hsym. induction w as [|u r IH]; intros C; [exact I|].
  destruct r as [|v r']; [exact I|].
  destruct C as [Huv C].
  change (rev (u :: v :: r')) with ((rev r' ++ [v]) ++ [u]).
  apply chain_snoc.
  - exact (IH C).
  - apply Hsym. exact Huv.
Qed.

Lemma adj_sym t u v : adj t u v -> adj t v u.
Proof.
  intros (i & j & H & [[-> ->]|[-> ->]]); exists i, j; auto.
Qed.

Lemma link_sym c t pot u v : link c t pot u v -> link c t pot v u.
Proof.
  intros [A E]. split; [now apply adj_sym|].
  destruct A as (i & j & _ & [[-> ->]|[-> ->]]); simpl in *; lra.
Qed.

Lemma chain_link_adj c t pot w :
  chain (link c t pot) w -> chain (adj t) w.
Proof.
  apply chain_impl_in. intros u v _ _ [A _]. exact A.
Qed.

Lemma backward_arcs_tree t w a :
  chain (adj t) w -> In a (backward_arcs w) -> In a t.
Proof.
  induction w as [|u r IH]; intros C H; [contradiction|].
  destruct r as [|v r'].
  - destruct u; contradiction.
  - destruct C as [Huv C]. destruct u as [i0|j0].
    + apply IH; assumption.
    + destruct v as [i1|j1].
      * destruct H as [<-|H]; [|now apply IH].
        destruct Huv as (i & j & Hin & [[E1 E2]|[E1 E2]]);
          inversion E1; inversion E2; subst; exact Hin.
      * now apply IH.
Qed.

(** ** Labels built by the traversal *)

Section Labels.

Variable c : nat -> nat -> Q.
Variable t : list Arc.

Lemma find_label_some L v l :
  find_label L v = Some l -> l_node l = v /\ In l L.
Proof.
  unfold find_label. intros H. apply find_some in H.
  destruct H as [Hin E]. apply node_eqb_eq in E. auto.
Qed.

Lemma find_label_none L v :
  find_label L v = None <-> ~ labelled L v.
Proof.
  unfold find_label, labelled. split.
  - intros H K. apply in_map_iff in K. destruct K as (l & E & Hl).
    pose proof (find_none _ _ H l Hl) as N. simpl in N.
    rewrite E, node_eqb_refl in N. discriminate.
  - intros H. destruct (find _ L) as [l|] eqn:F; [|reflexivity].
    apply find_some in F. destruct F as [Hin E].
    apply node_eqb_eq in E. exfalso. apply H.
    rewrite <- E. now apply in_map.
Qed.

Lemma labels_ok_NoDup L : labels_ok c t L -> NoDup (map l_node L).
Proof.
  induction 1 as [|L i j li _ IH _ _ Hn|L i j lj _ IH _ Hn _]; simpl.
  - constructor; [tauto|constructor].
  - constructor; [|exact IH]. now apply find_label_none.
  - constructor; [|exact IH]. now apply find_label_none.
Qed.

Lemma labels_ok_root L : labels_ok c t L -> labelled L root.
Proof.
  induction 1; unfold labelled in *; simpl; auto.
Qed.

Lemma visit_arc_ok L a :
  labels_ok c t L -> In a t -> labels_ok c t (visit_arc c L a).
Proof.
  intros H Ha. destruct a as [i j]. unfold visit_arc.
  destruct (find_label L (Src i)) as [li|] eqn:Fi;
    destruct (find_label L (Snk j)) as [lj|] eqn:Fj; try exact H.
  - now apply ok_snk.
  - now apply ok_src.
Qed.

Lemma fold_visit_ok t' : forall L,
  incl t' t -> labels_ok c t L -> labels_ok c t (fold_left (visit_arc c) t' L).
Proof.
  induction t' as [|a t' IH]; intros L Hi H; simpl; [exact H|].
  apply IH.
  - intros x Hx. apply Hi. now right.
  - apply visit_arc_ok; [exact H|]. apply Hi. now left.
Qed.

Lemma sweeps_ok k : forall L,
  labels_ok c t L -> labels_ok c t (sweeps k c t L).
Proof.
  induction k as [|k IH]; intros L H; simpl; [exact H|].
  apply IH. apply fold_visit_ok; [apply incl_refl|exact H].
Qed.

Lemma tree_potentials_ok : labels_ok c t (tree_potentials c t).
Proof. apply sweeps_ok. constructor. Qed.

(** A visit adds at most one label. *)
Lemma visit_arc_cases L a :
  visit_arc c L a = L \/ exists l, visit_arc c L a = l :: L.
Proof.
  destruct a as [i j]. unfold visit_arc.
  destruct (find_label L (Src i)), (find_label L (Snk j)); eauto.
Qed.

Lemma fold_visit_length t' : forall L,
  (List.length L <= List.length (fold_left (visit_arc c) t' L))%nat.
Proof.
  induction t' as [|a t' IH]; intros L; simpl; [lia|].
  specialize (IH (visit_arc c L a)).
  destruct (visit_arc_cases L a) as [E|[l E]]; rewrite E in *; simpl in *; lia.
Qed.

(** A sweep that adds no label leaves every arc with both ends visited
    or both ends unvisited. *)
Lemma fold_visit_fix t' : forall L,
  List.length (fold_left (visit_arc c) t' L) = List.length L ->
  fold_left (visit_arc c) t' L = L
  /\ forall a, In a t' -> visit_arc c L a = L.
Proof.
  induction t' as [|a t' IH]; intros L H; simpl in *.
  - split; [reflexivity|tauto].
  - pose proof (fold_visit_length t' (visit_arc c L a)) as Hl.
    destruct (visit_arc_cases L a) as [E|[l E]].
    + rewrite E in *. destruct (IH L H) as [F G].
      split; [exact F|]. intros b [<-|Hb]; auto.
    + rewrite E in H, Hl. simpl in Hl. lia.
Qed.

Lemma stable_adj L u v :
  stable c t L -> adj t u v -> labelled L u -> labelled L v.
Proof.
  intros Hs (i & j & Hin & Huv) Hu.
  specialize (Hs _ Hin). unfold visit_arc in Hs.
  assert (Hno : forall (l : Label), l :: L <> L).
  { intros l K. apply (f_equal (@List.length Label)) in K. simpl in K. lia. }
  destruct (find_label L (Src i)) as [li|] eqn:Fi;
    destruct (find_label L (Snk j)) as [lj|] eqn:Fj.
  - destruct Huv as [[-> ->]|[-> ->]].
    + apply find_label_some in Fj. destruct Fj as [<- Hl]. now apply in_map.
    + apply find_label_some in Fi. destruct Fi as [<- Hl]. now apply in_map.
  - now apply Hno in Hs.
  - now apply Hno in Hs.
  - apply find_label_none in Fi. apply find_label_none in Fj.
    destruct Huv as [[-> ->]|[-> ->]]; contradiction.
Qed.

Lemma stable_connected L v :
  labels_ok c t L -> stable c t L -> connected t root v -> labelled L v.
Proof.
  intros Hok Hs Hc. apply clos_rt_rt1n in Hc.
  pose proof (labels_ok_root L Hok) as Hr. revert Hr.
  generalize root Hc. clear Hc.
  intros u Hu. induction Hu as [|x y z Hxy _ IH]; [tauto|].
  intros Hx. apply IH. exact (stable_adj L x y Hs Hxy Hx).
Qed.

Lemma sweeps_stable k : forall L,
  stable c t L -> sweeps k c t L = L.
Proof.
  induction k as [|k IH]; intros L Hs; simpl; [reflexivity|].
  assert (E : forall t', incl t' t -> fold_left (visit_arc c) t' L = L).
  { induction t' as [|a t' IHt]; intros Hi; simpl; [reflexivity|].
    rewrite (Hs a (Hi a (or_introl eq_refl))). apply IHt.
    intros b Hb. apply Hi. now right. }
  unfold sweep. rewrite (E t (incl_refl t)). now apply IH.
Qed.

(** After [k] sweeps the labels are stable or at least [k] were added. *)
Lemma sweeps_progress k : forall L,
  stable c t (sweeps k c t L)
  \/ (List.length L + k <= List.length (sweeps k c t L))%nat.
Proof.
  induction k as [|k IH]; intros L; simpl.
  - right. lia.
  - pose proof (fold_visit_length t L) as Hl. fold (sweep c t L) in Hl.
    destruct (Nat.eq_dec (List.length (sweep c t L)) (List.length L)) as [E|E].
    + left. destruct (fold_visit_fix t L E) as [F G].
      unfold sweep. rewrite F. rewrite sweeps_stable; exact G.
    + destruct (IH (sweep c t L)) as [S|S]; [now left|right]. lia.
Qed.

End Labels.


(** ** The traversal of a spanning tree reaches every node *)

Lemma all_nodes_In n m v : In v (all_nodes n m) <-> valid_node n m v.
Proof.
  unfold all_nodes. rewrite in_app_iff, !in_map_iff. split.
  - intros [(i & <- & H)|(j & <- & H)]; apply in_seq in H; simpl; lia.
  - destruct v as [i|j]; simpl; intros H.
    + left. exists i. split; [reflexivity|]. apply in_seq. lia.
    + right. exists j. split; [reflexivity|]. apply in_seq. lia.
Qed.

Lemma all_nodes_length n m : List.length (all_nodes n m) = (n + m)%nat.
Proof.
  unfold all_nodes. now rewrite length_app, !length_map, !length_seq.
Qed.

Section Reach.

Variable c : nat -> nat -> Q.
Variable t : list Arc.
Variables n m : nat.
Hypothesis t_valid : Forall (valid_arc n m) t.
Hypothesis n_pos : (0 < n)%nat.

Lemma labels_valid L v :
  labels_ok c t L -> labelled L v -> valid_node n m v.
Proof.
  rewrite Forall_forall in t_valid.
  induction 1 as [|L i j li _ IH Hin _ _|L i j lj _ IH Hin _ _];
    unfold labelled; simpl.
  - intros [<-|[]]. exact n_pos.
  - intros [<-|H]; [|now apply IH]. apply (t_valid _ Hin).
  - intros [<-|H]; [|now apply IH]. apply (t_valid _ Hin).
Qed.

Lemma all_labelled v :
  (List.length t + 1 = n + m)%nat ->
  (forall x, valid_node n m x -> connected t root x) ->
  valid_node n m v -> labelled (tree_potentials c t) v.
Proof.
  intros Hsize Hspan Hv.
  pose proof (tree_potentials_ok c t) as Hok.
  unfold tree_potentials in *.
  destruct (sweeps_progress c t (List.length t) [root_label]) as [S|S].
  - apply (stable_connected c t _ v Hok S). now apply Hspan.
  - simpl in S.
    assert (Hincl : incl (all_nodes n m)
                         (map l_node (sweeps (List.length t) c t [root_label]))).
    { apply NoDup_length_incl.
      - now apply (labels_ok_NoDup c t _ Hok).
      - rewrite all_nodes_length, length_map. lia.
      - intros x Hx. apply all_nodes_In. eapply labels_valid; eassumption. }
    apply Hincl. now apply all_nodes_In.
Qed.

End Reach.

(** ** Paths to the root *)

Section Paths.

Variable c : nat -> nat -> Q.
Variable t : list Arc.

Lemma path_labelled L : forall v x,
  In x (path_to_root L v) -> labelled L x.
Proof.
  unfold labelled.
  induction L as [|l L IH]; intros v x H; simpl in *; [contradiction|].
  destruct (node_eqb (l_node l) v) eqn:E.
  - apply node_eqb_eq in E. destruct H as [<-|H]; [now left|].
    right. destruct (l_parent l) as [p|]; [|contradiction].
    exact (IH p x H).
  - right. exact (IH v x H).
Qed.

Lemma path_head L v :
  labelled L v -> exists r, path_to_root L v = v :: r.
Proof.
  unfold labelled.
  induction L as [|l L IH]; simpl; [tauto|].
  intros H. destruct (node_eqb (l_node l) v) eqn:E; [eauto|].
  apply node_eqb_neq in E. destruct H as [H|H]; [contradiction|]. auto.
Qed.

Lemma path_skip l L v :
  l_node l <> v -> path_to_root (l :: L) v = path_to_root L v.
Proof.
  intros H. simpl. apply node_eqb_neq in H. now rewrite H.
Qed.

Lemma path_NoDup L :
  NoDup (map l_node L) -> forall v, NoDup (path_to_root L v).
Proof.
  induction L as [|l L IH]; intros Hnd v; simpl; [constructor|].
  inversion Hnd as [|? ? Hl HL]; subst.
  destruct (node_eqb (l_node l) v) eqn:E; [|now apply IH].
  apply node_eqb_eq in E. subst v.
  destruct (l_parent l) as [p|].
  - constructor; [|now apply IH].
    intros K. apply path_labelled in K. contradiction.
  - constructor; [tauto|constructor].
Qed.

Lemma potential_skip l L v :
  l_node l <> v -> potential (l :: L) v = potential L v.
Proof.
  intros H. unfold potential, find_label. simpl.
  apply node_eqb_neq in H. now rewrite H.
Qed.

Lemma potential_found L v l :
  find_label L v = Some l -> potential L v = l_pot l.
Proof. intros H. unfold potential. now rewrite H. Qed.

Lemma path_root L :
  labels_ok c t L ->
  forall v, labelled L v -> In root (path_to_root L v).
Proof.
  induction 1 as [|L i j li _ IH _ Fi Fj|L i j lj _ IH _ Fi Fj]; intros v Hv.
  - destruct Hv as [<-|[]]. simpl. now left.
  - destruct (node_dec (Snk j) v) as [<-|E].
    + simpl. rewrite Nat.eqb_refl. right. apply IH.
      apply find_label_some in Fi. destruct Fi as [<- Hl]. now apply in_map.
    + rewrite path_skip by exact E. apply IH.
      destruct Hv as [Hv|Hv]; [contradiction|exact Hv].
  - destruct (node_dec (Src i) v) as [<-|E].
    + simpl. rewrite Nat.eqb_refl. right. apply IH.
      apply find_label_some in Fj. destruct Fj as [<- Hl]. now apply in_map.
    + rewrite path_skip by exact E. apply IH.
      destruct Hv as [Hv|Hv]; [contradiction|exact Hv].
Qed.

(** Adding a label does not change the links between older nodes. *)
Lemma chain_link_skip l L w :
  (forall x, In x w -> labelled L x) -> ~ labelled L (l_node l) ->
  chain (link c t (potential L)) w ->
  chain (link c t (potential (l :: L))) w.
Proof.
  intros Hw Hl. apply chain_impl_in.
  intros u v Hu Hv [A E]. split; [exact A|].
  rewrite !potential_skip; [exact E| |].
  - intros K. apply Hl. rewrite K. now apply Hw.
  - intros K. apply Hl. rewrite K. now apply Hw.
Qed.

(** Each step of a path to the root is a tree arc whose potentials fit
    its cost. *)
Lemma path_chain L :
  labels_ok c t L ->
  forall v, chain (link c t (potential L)) (path_to_root L v).
Proof.
  induction 1 as [|L i j li Hok IH Hin Fi Fj|L i j lj Hok IH Hin Fi Fj];
    intros v.
  - cbn [path_to_root root_label l_node l_parent].
    destruct (node_eqb root v); exact I.
  - set (l := {| l_node := Snk j; l_parent := Some (Src i);
                 l_pot := l_pot li - c i j |}).
    assert (Hl : ~ labelled L (l_node l)) by now apply find_label_none.
    destruct (node_dec (Snk j) v) as [<-|E].
    + assert (P : path_to_root (l :: L) (Snk j)
                  = Snk j :: path_to_root L (Src i)).
      { simpl. now rewrite Nat.eqb_refl. }
      rewrite P.
      assert (Hi : labelled L (Src i)).
      { apply find_label_some in Fi. destruct Fi as [<- K]. now apply in_map. }
      destruct (path_head L _ Hi) as [r Hr]. rewrite Hr. split.
      * split.
        -- exists i, j. auto.
        -- rewrite (potential_skip l L (Src i)) by (unfold l; discriminate).
           rewrite (potential_found _ _ _ Fi).
           unfold potential, find_label. simpl. rewrite Nat.eqb_refl.
           simpl. lra.
      * rewrite <- Hr. apply chain_link_skip; [|exact Hl|apply IH].
        intros x Hx. exact (path_labelled _ _ _ Hx).
    + rewrite (path_skip l L v) by exact E.
      apply chain_link_skip; [|exact Hl|apply IH].
      intros x Hx. exact (path_labelled _ _ _ Hx).
  - set (l := {| l_node := Src i; l_parent := Some (Snk j);
                 l_pot := l_pot lj + c i j |}).
    assert (Hl : ~ labelled L (l_node l)) by now apply find_label_none.
    destruct (node_dec (Src i) v) as [<-|E].
    + assert (P : path_to_root (l :: L) (Src i)
                  = Src i :: path_to_root L (Snk j)).
      { simpl. now rewrite Nat.eqb_refl. }
      rewrite P.
      assert (Hj : labelled L (Snk j)).
      { apply find_label_some in Fj. destruct Fj as [<- K]. now apply in_map. }
      destruct (path_head L _ Hj) as [r Hr]. rewrite Hr. split.
      * split.
        -- exists i, j. auto.
        -- rewrite (potential_skip l L (Snk j)) by (unfold l; discriminate).
           rewrite (potential_found _ _ _ Fj).
           unfold potential, find_label. simpl. rewrite Nat.eqb_refl.
           simpl. lra.
      * rewrite <- Hr. apply chain_link_skip; [|exact Hl|apply IH].
        intros x Hx. exact (path_labelled _ _ _ Hx).
    + rewrite (path_skip l L v) by exact E.
      apply chain_link_skip; [|exact Hl|apply IH].
      intros x Hx. exact (path_labelled _ _ _ Hx).
Qed.

End Paths.


(** ** The tree path between two nodes *)

Lemma until_meet_spec other : forall p,
  (exists z, In z p /\ In z other) ->
  exists a z rest,
    p = a ++ z :: rest /\ until_meet other p = a ++ [z]
    /\ In z other /\ (forall x, In x a -> ~ In x other).
Proof.
  induction p as [|v r IH]; intros (z & Hz & Ho); [contradiction|].
  simpl. destruct (node_mem v other) eqn:M.
  - apply node_mem_In in M. exists [], v, r. simpl. tauto.
  - apply node_mem_not_In in M.
    destruct Hz as [->|Hz]; [contradiction|].
    destruct (IH (ex_intro _ z (conj Hz Ho))) as (a & z' & rest & E1 & E2 & H1 & H2).
    exists (v :: a), z', rest. simpl. rewrite E1 at 1. rewrite E2.
    repeat split; auto.
    intros x [<-|Hx]; auto.
Qed.

Lemma before_spec z : forall p,
  In z p ->
  exists rest, p = before z p ++ z :: rest /\ ~ In z (before z p).
Proof.
  induction p as [|v r IH]; intros H; [contradiction|].
  simpl. destruct (node_eqb v z) eqn:E.
  - apply node_eqb_eq in E. subst. exists r. simpl. tauto.
  - apply node_eqb_neq in E. destruct H as [H|H]; [contradiction|].
    destruct (IH H) as (rest & E1 & E2). exists rest. simpl.
    rewrite <- E1. split; [reflexivity|]. intros [K|K]; contradiction.
Qed.

Section TreePath.

Variable c : nat -> nat -> Q.
Variable t : list Arc.
Variable L : list Label.
Hypothesis L_ok : labels_ok c t L.

(** The path climbs from [u] to the first common ancestor [z] and
    descends to [v]. *)
Lemma tree_path_shape u v :
  labelled L u -> labelled L v ->
  exists a z b rest_u rest_v,
    path_to_root L u = a ++ z :: rest_u
    /\ path_to_root L v = b ++ z :: rest_v
    /\ tree_path L u v = a ++ z :: rev b
    /\ (forall x, In x a -> ~ In x (path_to_root L v))
    /\ ~ In z b.
Proof.
  intros Hu Hv.
  assert (Hmeet : exists z, In z (path_to_root L u) /\ In z (path_to_root L v)).
  { exists root. split; apply (path_root c t L L_ok); assumption. }
  destruct (until_meet_spec _ _ Hmeet) as (a & z & rest_u & E1 & E2 & Hz & Ha).
  destruct (before_spec z _ Hz) as (rest_v & E3 & Hb).
  exists a, z, (before z (path_to_root L v)), rest_u, rest_v.
  repeat split; try assumption.
  unfold tree_path. rewrite E2, last_last, <- app_assoc. reflexivity.
Qed.

Lemma tree_path_NoDup u v :
  labelled L u -> labelled L v -> NoDup (tree_path L u v).
Proof.
  intros Hu Hv.
  destruct (tree_path_shape u v Hu Hv)
    as (a & z & b & ru & rv & Eu & Ev & Et & Ha & Hb).
  pose proof (path_NoDup L (labels_ok_NoDup c t L L_ok) u) as Nu.
  pose proof (path_NoDup L (labels_ok_NoDup c t L L_ok) v) as Nv.
  rewrite Eu in Nu. rewrite Ev in Nv, Ha. rewrite Et.
  apply NoDup_app.
  - exact (NoDup_app_remove_r _ _ Nu).
  - constructor.
    + rewrite <- in_rev. exact Hb.
    + apply NoDup_rev. exact (NoDup_app_remove_r _ _ Nv).
  - intros x Hx [E|K].
    + apply (Ha x Hx). apply in_or_app. right. now left.
    + apply (Ha x Hx). apply in_or_app. left. now apply in_rev.
Qed.

Lemma tree_path_chain u v :
  labelled L u -> labelled L v ->
  chain (link c t (potential L)) (tree_path L u v).
Proof.
  intros Hu Hv.
  destruct (tree_path_shape u v Hu Hv)
    as (a & z & b & ru & rv & Eu & Ev & Et & Ha & Hb).
  pose proof (path_chain c t L L_ok u) as Cu.
  pose proof (path_chain c t L L_ok v) as Cv.
  rewrite Eu in Cu. rewrite Ev in Cv. rewrite Et.
  apply chain_join.
  - apply (chain_app_l _ (a ++ [z]) ru). rewrite <- app_assoc. exact Cu.
  - change (z :: rev b) with (rev [z] ++ rev b). rewrite <- rev_app_distr.
    apply chain_rev; [apply link_sym|].
    apply (chain_app_l _ (b ++ [z]) rv). rewrite <- app_assoc. exact Cv.
Qed.

Lemma tree_path_ends u v :
  labelled L u -> labelled L v ->
  exists r, tree_path L u v = u :: r /\ last r u = v.
Proof.
  intros Hu Hv.
  destruct (tree_path_shape u v Hu Hv)
    as (a & z & b & ru & rv & Eu & Ev & Et & Ha & Hb).
  destruct (path_head L u Hu) as [pu Pu].
  destruct (path_head L v Hv) as [pv Pv].
  rewrite Pu in Eu. rewrite Pv in Ev. rewrite Et.
  assert (Hlast : forall d, last (a ++ z :: rev b) d = v).
  { intros d. destruct b as [|y b'].
    - simpl in Ev. inversion Ev; subst. simpl.
      change (a ++ [z]) with (a ++ [z]). apply last_last.
    - simpl in Ev. inversion Ev; subst. simpl.
      change (a ++ z :: rev b' ++ [y]) with (a ++ (z :: rev b') ++ [y]).
      rewrite app_assoc. apply last_last. }
  destruct a as [|x a'].
  - simpl in Eu. injection Eu as Ez Er. subst z.
    exists (rev b). split; [reflexivity|].
    rewrite <- (last_cons (rev b) u u). apply Hlast.
  - simpl in Eu. injection Eu as Ex Er. subst x.
    exists (a' ++ z :: rev b). split; [reflexivity|].
    rewrite <- (last_cons (a' ++ z :: rev b) u u). apply Hlast.
Qed.

End TreePath.


(** ** Connectivity *)

Lemma last_app_cons {A : Type} (a : list A) x b d :
  last (a ++ x :: b) d = last (x :: b) d.
Proof.
  induction a as [|y a IH]; [reflexivity|].
  rewrite <- IH. simpl. destruct (a ++ x :: b) eqn:E; [|reflexivity].
  destruct a; discriminate.
Qed.

Lemma last_In {A : Type} (l : list A) d : l <> [] -> In (last l d) l.
Proof.
  induction l as [|x l IH]; intros H; [contradiction|].
  destruct l as [|y l']; [now left|].
  right. apply IH. discriminate.
Qed.

Lemma NoDup_app_disjoint {A : Type} (a b : list A) x :
  NoDup (a ++ b) -> In x a -> In x b -> False.
Proof.
  induction a as [|y a IH]; intros Nd Ha Hb; [contradiction|].
  inversion Nd as [|? ? Hy Nd']; subst.
  destruct Ha as [->|Ha].
  - apply Hy. apply in_or_app. now right.
  - exact (IH Nd' Ha Hb).
Qed.

Lemma connected_sym t u v : connected t u v -> connected t v u.
Proof.
  induction 1 as [x y H|x|x y z _ IH1 _ IH2].
  - apply rt_step. now apply adj_sym.
  - apply rt_refl.
  - eapply rt_trans; eassumption.
Qed.

Lemma connected_mono t t' :
  (forall u v, adj t u v -> connected t' u v) ->
  forall u v, connected t u v -> connected t' u v.
Proof.
  intros H u v. induction 1 as [x y K|x|x y z _ IH1 _ IH2].
  - now apply H.
  - apply rt_refl.
  - eapply rt_trans; eassumption.
Qed.

Lemma chain_head_connected t : forall r u,
  chain (adj t) (u :: r) -> forall y, In y (u :: r) -> connected t u y.
Proof.
  induction r as [|v r IH]; intros u C y Hy.
  - destruct Hy as [<-|[]]. apply rt_refl.
  - destruct C as [Huv C]. destruct Hy as [<-|Hy]; [apply rt_refl|].
    eapply rt_trans; [apply rt_step; exact Huv|]. now apply IH.
Qed.

Lemma chain_connected t w x y :
  chain (adj t) w -> In x w -> In y w -> connected t x y.
Proof.
  destruct w as [|u r]; [contradiction|]. intros C Hx Hy.
  eapply rt_trans.
  - apply connected_sym. exact (chain_head_connected t r u C x Hx).
  - exact (chain_head_connected t r u C y Hy).
Qed.

Lemma chain_app_r (R : Node -> Node -> Prop) a : forall b,
  chain R (a ++ b) -> chain R b.
Proof.
  induction a as [|u a IH]; intros b C; [exact C|].
  apply IH. destruct a as [|v a']; simpl in *.
  - destruct b; [exact I|]. tauto.
  - tauto.
Qed.

Lemma backward_split i j : forall w,
  In (i, j) (backward_arcs w) ->
  exists w1 w2, w = w1 ++ Snk j :: Src i :: w2.
Proof.
  induction w as [|u r IH]; intros H; [contradiction|].
  assert (G : In (i, j) (backward_arcs r) ->
              exists w1 w2, u :: r = w1 ++ Snk j :: Src i :: w2).
  { intros K. destruct (IH K) as (w1 & w2 & E).
    exists (u :: w1), w2. simpl. now rewrite E. }
  destruct u as [i0|j0]; [now apply G|].
  destruct r as [|[i1|j1] r']; [contradiction| |now apply G].
  destruct H as [E|H]; [|now apply G].
  inversion E; subst. exists [], r'. reflexivity.
Qed.

(** A walk that misses an end of an arc does not use the arc. *)
Lemma chain_adj_avoid t t' i j w :
  (forall a, In a t -> a <> (i, j) -> In a t') ->
  ~ In (Src i) w \/ ~ In (Snk j) w ->
  chain (adj t) w -> chain (adj t') w.
Proof.
  intros Ht Hw. apply chain_impl_in.
  intros u v Hu Hv (i0 & j0 & Hin & Huv).
  exists i0, j0. split; [|exact Huv].
  apply Ht; [exact Hin|]. intros E. inversion E; subst.
  destruct Huv as [[-> ->]|[-> ->]]; tauto.
Qed.

Lemma non_tree_arcs_In n m t a :
  In a (non_tree_arcs n m t) <-> valid_arc n m a /\ ~ In a t.
Proof.
  unfold non_tree_arcs, all_arcs, valid_arc. rewrite filter_In.
  destruct a as [i j].
  pose proof (in_prod_iff (seq 0 n) (seq 0 m) i j) as P.
  rewrite !in_seq in P. rewrite negb_true_iff, arc_mem_not_In.
  simpl. unfold Arc in *. rewrite P. split.
  - intros [[H1 H2] H3]. repeat split; [lia|lia|exact H3].
  - intros [[H1 H2] H3]. repeat split; [lia|lia|lia|lia|exact H3].
Qed.

Lemma adj_proper n m t u v :
  Forall (valid_arc n m) t -> adj t u v -> proper n m u v.
Proof.
  intros Ht (i & j & Hin & Huv). rewrite Forall_forall in Ht.
  destruct (Ht _ Hin) as [Hi Hj]. simpl in Hi, Hj.
  destruct Huv as [[-> ->]|[-> ->]]; repeat split; assumption.
Qed.


(** ** A pivot keeps the invariant *)

Section Pivot.

Variable g : FlowGraph.
Variable st : State.
Hypothesis HI : Inv g st.
Variables i j : nat.
Hypothesis He : In (i, j) (non_tree_arcs (n_sources g) (n_sinks g) (tree st)).

Let n := n_sources g.
Let m := n_sinks g.
Let c := arc_cost g.
Let L := tree_potentials c (tree st).
Let tp := tree_path L (Snk j) (Src i).
Let f := flow st.
Let back := backward_arcs tp.
Let th := theta_of f back.
Let out := leaving_arc f (i, j) back.

Lemma entering_valid : valid_arc n m (i, j).
Proof. apply non_tree_arcs_In in He. tauto. Qed.

Lemma entering_fresh : ~ In (i, j) (tree st).
Proof. apply non_tree_arcs_In in He. tauto. Qed.

Lemma pivot_labels_ok : labels_ok c (tree st) L.
Proof. apply tree_potentials_ok. Qed.

Lemma pivot_labelled v : valid_node n m v -> labelled L v.
Proof.
  intros Hv. apply (all_labelled c (tree st) n m).
  - exact (inv_valid HI).
  - exact (proj1 (inv_pos HI)).
  - exact (inv_size HI).
  - exact (inv_span HI).
  - exact Hv.
Qed.

Lemma tp_ends : exists r, tp = Snk j :: r /\ last r (Snk j) = Src i.
Proof.
  destruct entering_valid as [Hi Hj].
  apply (tree_path_ends c (tree st) L pivot_labels_ok);
    apply pivot_labelled; assumption.
Qed.

Lemma tp_NoDup : NoDup tp.
Proof.
  destruct entering_valid as [Hi Hj].
  apply (tree_path_NoDup c (tree st) L pivot_labels_ok);
    apply pivot_labelled; assumption.
Qed.

Lemma tp_chain : chain (link c (tree st) (potential L)) tp.
Proof.
  destruct entering_valid as [Hi Hj].
  apply (tree_path_chain c (tree st) L pivot_labels_ok);
    apply pivot_labelled; assumption.
Qed.

Lemma tp_adj : chain (adj (tree st)) tp.
Proof. exact (chain_link_adj _ _ _ _ tp_chain). Qed.

Lemma cycle_back : backward_arcs (cycle L (i, j)) = back.
Proof. reflexivity. Qed.

Lemma back_nonempty : back <> [].
Proof.
  unfold back. destruct tp_ends as (r & E & Hl).
  pose proof tp_adj as C. rewrite E in C |- *.
  destruct r as [|x r'].
  - simpl in Hl. discriminate.
  - destruct C as [(i0 & j0 & _ & [[K _]|[_ ->]]) _]; [discriminate|].
    simpl. discriminate.
Qed.

Lemma back_tree a : In a back -> In a (tree st).
Proof. apply backward_arcs_tree. exact tp_adj. Qed.

Lemma out_back : In out back.
Proof. exact (proj1 (leaving_arc_spec f (i, j) back back_nonempty)). Qed.

Lemma out_flow : flow_at f out == th.
Proof. exact (proj2 (leaving_arc_spec f (i, j) back back_nonempty)). Qed.

Lemma out_tree : In out (tree st).
Proof. apply back_tree. exact out_back. Qed.

Lemma out_not_entering : out <> (i, j).
Proof.
  intros E. apply entering_fresh. rewrite <- E. exact out_tree.
Qed.

Lemma th_nonneg : 0 <= th.
Proof. apply theta_nonneg. exact (inv_nonneg HI). Qed.

Lemma pivot_tree :
  tree (pivot g L st (i, j)) = replace_arc out (i, j) (tree st).
Proof. reflexivity. Qed.

Lemma pivot_flow :
  flow (pivot g L st (i, j)) = push_walk (add_flow f (i, j) th) th tp.
Proof.
  unfold pivot. cbn [flow]. rewrite cycle_back. fold f th.
  unfold cycle. cbn [fst snd]. fold tp.
  destruct tp_ends as (r & E & _). rewrite E. reflexivity.
Qed.

Lemma pivot_flow_nonneg i' j' : 0 <= flow (pivot g L st (i, j)) i' j'.
Proof.
  rewrite pivot_flow.
  pose proof (push_walk_lower th i' j' tp (add_flow f (i, j) th)
                tp_NoDup th_nonneg) as H.
  fold back in H. rewrite add_flow_val in H.
  pose proof th_nonneg as Hth. pose proof (inv_nonneg HI i' j') as Hf.
  fold f in Hf.
  assert (0 <= (if arc_eqb (i, j) (i', j') then th else 0))
    by (destruct (arc_eqb (i, j) (i', j')); lra).
  destruct (arc_mem (i', j') back) eqn:M; [|lra].
  apply arc_mem_In in M. pose proof (theta_le f back _ M) as K.
  fold th in K. unfold flow_at in K. simpl in K. lra.
Qed.

Lemma pivot_flow_out :
  flow_at (flow (pivot g L st (i, j))) out == 0.
Proof.
  rewrite pivot_flow. unfold flow_at.
  pose proof out_back as Hb. pose proof out_flow as Hf.
  pose proof out_not_entering as Hne.
  destruct out as [io jo]. cbn [fst snd].
  rewrite (push_walk_backward th io jo tp _ tp_NoDup Hb).
  rewrite add_flow_val.
  assert (arc_eqb (i, j) (io, jo) = false) as ->
    by (apply arc_eqb_neq; congruence).
  unfold flow_at in Hf. simpl in Hf. lra.
Qed.

Lemma pivot_flow_off i' j' :
  ~ In (i', j') (tree st) -> (i', j') <> (i, j) ->
  flow (pivot g L st (i, j)) i' j' == 0.
Proof.
  intros Hn Hne. rewrite pivot_flow.
  rewrite (push_walk_off (tree st) th i' j' tp _ tp_adj Hn).
  rewrite add_flow_val.
  assert (arc_eqb (i, j) (i', j') = false) as ->
    by (apply arc_eqb_neq; congruence).
  pose proof (inv_support HI i' j' Hn) as K. fold f in K. lra.
Qed.

Lemma pivot_excess x :
  excess n m (flow (pivot g L st (i, j))) x == excess n m f x.
Proof.
  assert (E : flow (pivot g L st (i, j)) = push_walk f th (Src i :: tp)).
  { unfold pivot. cbn [flow]. rewrite cycle_back. reflexivity. }
  rewrite E. rewrite push_walk_excess.
  - destruct tp_ends as (r & Et & Hl). rewrite Et.
    rewrite last_cons, Hl. lra.
  - pose proof tp_adj as C. destruct tp_ends as (r & Et & _).
    rewrite Et in C |- *. split.
    + destruct entering_valid as [Hi Hj]. repeat split; assumption.
    + revert C. apply chain_impl_in. intros u v _ _ A.
      exact (adj_proper n m (tree st) u v (inv_valid HI) A).
Qed.

(** The ends of the leaving arc stay connected through the rest of the
    cycle. *)
Lemma pivot_reconnect :
  connected (replace_arc out (i, j) (tree st))
            (Src (fst out)) (Snk (snd out)).
Proof.
  pose proof out_back as Hb. pose proof out_tree as Ht.
  pose proof out_not_entering as Hne.
  destruct out as [io jo]. cbn [fst snd].
  set (t' := replace_arc (io, jo) (i, j) (tree st)).
  destruct (backward_split io jo tp Hb) as (w1 & w2 & Ew).
  pose proof tp_NoDup as Nd. pose proof tp_adj as C.
  destruct tp_ends as (r & Et & Hl).
  assert (Hkeep : forall a, In a (tree st) -> a <> (io, jo) -> In a t').
  { intros a Ha Hn. apply replace_arc_In. now right. }
  assert (Hent : adj t' (Src i) (Snk j)).
  { exists i, j. split; [|now left]. apply replace_arc_In. now left. }
  assert (Hhead : In (Snk j) (w1 ++ [Snk jo])).
  { rewrite Et in Ew. destruct w1 as [|x w1']; simpl in Ew |- *;
      injection Ew as Ex _; auto. }
  assert (Hlast : In (Src i) (Src io :: w2)).
  { rewrite <- Hl, <- (last_cons r (Snk j) (Snk j)), <- Et, Ew.
    change (w1 ++ Snk jo :: Src io :: w2)
      with (w1 ++ [Snk jo] ++ Src io :: w2).
    rewrite app_assoc, last_app_cons. apply last_In. discriminate. }
  rewrite Ew in Nd, C.
  assert (C1 : chain (adj t') (w1 ++ [Snk jo])).
  { apply (chain_adj_avoid (tree st) t' io jo); [exact Hkeep| |].
    - left. intros K. rewrite in_app_iff in K.
      destruct K as [K|[K|[]]]; [|discriminate].
      apply (NoDup_app_disjoint _ _ (Src io) Nd K). right. now left.
    - apply (chain_app_l _ (w1 ++ [Snk jo]) (Src io :: w2)).
      rewrite <- app_assoc. exact C. }
  assert (C2 : chain (adj t') (Src io :: w2)).
  { apply (chain_adj_avoid (tree st) t' io jo); [exact Hkeep| |].
    - right. intros [K|K]; [discriminate|].
      apply NoDup_app_remove_l in Nd. inversion Nd as [|? ? Hx _]; subst.
      apply Hx. now right.
    - apply (chain_app_r _ (w1 ++ [Snk jo]) (Src io :: w2)).
      rewrite <- app_assoc. exact C. }
  eapply rt_trans.
  - apply (chain_connected t' (Src io :: w2) (Src io) (Src i) C2);
      [now left|exact Hlast].
  - eapply rt_trans; [apply rt_step; exact Hent|].
    apply (chain_connected t' (w1 ++ [Snk jo]) (Snk j) (Snk jo) C1);
      [exact Hhead|]. apply in_or_app. right. now left.
Qed.

Lemma pivot_span v :
  valid_node n m v ->
  connected (tree (pivot g L st (i, j))) root v.
Proof.
  intros Hv. rewrite pivot_tree.
  apply (connected_mono (tree st)); [|exact (inv_span HI v Hv)].
  intros x y (i0 & j0 & Hin & Hxy).
  destruct (arc_dec (i0, j0) out) as [E|E].
  - pose proof pivot_reconnect as R. rewrite <- E in R |- *.
    cbn [fst snd] in R.
    destruct Hxy as [[-> ->]|[-> ->]]; [exact R|].
    apply connected_sym. exact R.
  - apply rt_step. exists i0, j0. split; [|exact Hxy].
    apply replace_arc_In. now right.
Qed.

(** The state after a pivot satisfies the invariant again. *)
Lemma pivot_Inv : Inv g (pivot g L st (i, j)).
Proof.
  constructor.
  - exact (inv_pos HI).
  - rewrite pivot_tree. apply Forall_forall. intros a Ha.
    apply replace_arc_In in Ha. destruct Ha as [[-> _]|[Ha _]].
    + exact entering_valid.
    + pose proof (inv_valid HI) as V. rewrite Forall_forall in V. now apply V.
  - rewrite pivot_tree. apply replace_arc_NoDup.
    + exact (inv_nodup HI).
    + exact entering_fresh.
  - rewrite pivot_tree, replace_arc_length. exact (inv_size HI).
  - exact pivot_span.
  - exact pivot_flow_nonneg.
  - intros i' j' Hn. rewrite pivot_tree in Hn.
    destruct (arc_dec (i', j') out) as [E|E].
    + pose proof pivot_flow_out as K. rewrite <- E in K. exact K.
    + apply pivot_flow_off.
      * intros K. apply Hn. apply replace_arc_In. now right.
      * intros K. apply Hn. apply replace_arc_In. left.
        split; [exact K|exact out_tree].
  - intros i0 Hi0. pose proof (pivot_excess (Src i0)) as K.
    cbn [excess] in K. pose proof (@inv_rows g st HI i0 Hi0) as K'.
    unfold n, m, f in *. lra.
  - intros j0 Hj0. pose proof (pivot_excess (Snk j0)) as K.
    cbn [excess] in K. pose proof (@inv_cols g st HI j0 Hj0) as K'.
    unfold n, m, f in *. lra.
Qed.

End Pivot.


(** ** The northwest-corner rule *)

Lemma outflow_cons a x E i' :
  outflow ((a, x) :: E) i'
  == (if Nat.eqb (fst a) i' then x else 0) + outflow E i'.
Proof.
  unfold outflow. simpl. destruct (Nat.eqb (fst a) i'); simpl; lra.
Qed.

Lemma inflow_cons a x E j' :
  inflow ((a, x) :: E) j'
  == (if Nat.eqb (snd a) j' then x else 0) + inflow E j'.
Proof.
  unfold inflow. simpl. destruct (Nat.eqb (snd a) j'); simpl; lra.
Qed.

Lemma nth_shift (i i' : nat) (x : Q) (l : list Q) :
  (i < i')%nat -> nth (i' - i) (x :: l) 0 = nth (i' - S i) l 0.
Proof.
  intros H. replace (i' - i)%nat with (S (i' - S i)) by lia. reflexivity.
Qed.

Lemma nw_sums_row E i j x s s' d rows cols :
  nw_sums E (S i) j (s' :: rows) ((d - x) :: cols) ->
  x == s -> 0 <= x ->
  nw_sums (((i, j), x) :: E) i j (s :: s' :: rows) (d :: cols).
Proof.
  intros (Ho & Hi & Hp) Hx Hx0. repeat split.
  - intros i'. rewrite outflow_cons, Ho. cbn [fst].
    destruct (Nat.ltb_spec i' i) as [A|A];
      destruct (Nat.ltb_spec i' (S i)) as [B|B];
      destruct (Nat.eqb_spec i i') as [C|C]; try lia.
    + lra.
    + subst i'. rewrite Nat.sub_diag. simpl. lra.
    + rewrite (nth_shift i i' s) by lia. lra.
  - intros j'. rewrite inflow_cons, Hi. cbn [snd].
    destruct (Nat.ltb_spec j' j) as [A|A];
      destruct (Nat.eqb_spec j j') as [C|C]; try lia.
    + lra.
    + subst j'. rewrite Nat.sub_diag. simpl. lra.
    + destruct (j' - j)%nat eqn:K; [lia|]. simpl. lra.
  - constructor; [exact Hx0|exact Hp].
Qed.

Lemma nw_sums_col E i j x s d d' rows cols :
  nw_sums E i (S j) ((s - x) :: rows) (d' :: cols) ->
  x == d -> 0 <= x ->
  nw_sums (((i, j), x) :: E) i j (s :: rows) (d :: d' :: cols).
Proof.
  intros (Ho & Hi & Hp) Hx Hx0. repeat split.
  - intros i'. rewrite outflow_cons, Ho. cbn [fst].
    destruct (Nat.ltb_spec i' i) as [A|A];
      destruct (Nat.eqb_spec i i') as [C|C]; try lia.
    + lra.
    + subst i'. rewrite Nat.sub_diag. simpl. lra.
    + destruct (i' - i)%nat eqn:K; [lia|]. simpl. lra.
  - intros j'. rewrite inflow_cons, Hi. cbn [snd].
    destruct (Nat.ltb_spec j' j) as [A|A];
      destruct (Nat.ltb_spec j' (S j)) as [B|B];
      destruct (Nat.eqb_spec j j') as [C|C]; try lia.
    + lra.
    + subst j'. rewrite Nat.sub_diag. simpl. lra.
    + rewrite (nth_shift j j' d) by lia. lra.
  - constructor; [exact Hx0|exact Hp].
Qed.

Lemma nw_sums_last i j s d :
  s == d -> 0 <= s ->
  nw_sums [((i, j), Qmin s d)] i j [s] [d].
Proof.
  intros E H.
  assert (M : Qmin s d == s) by (apply Q.min_l; lra).
  repeat split.
  - intros i'. rewrite outflow_cons. cbn [fst]. unfold outflow. simpl.
    destruct (Nat.ltb_spec i' i) as [A|A];
      destruct (Nat.eqb_spec i i') as [C|C]; try lia.
    + lra.
    + subst i'. rewrite Nat.sub_diag. simpl. lra.
    + destruct (i' - i)%nat as [|[|p]] eqn:K; [lia| |]; simpl; lra.
  - intros j'. rewrite inflow_cons. cbn [snd]. unfold inflow. simpl.
    destruct (Nat.ltb_spec j' j) as [A|A];
      destruct (Nat.eqb_spec j j') as [C|C]; try lia.
    + lra.
    + subst j'. rewrite Nat.sub_diag. simpl. lra.
    + destruct (j' - j)%nat as [|[|p]] eqn:K; [lia| |]; simpl; lra.
  - constructor; [simpl; lra|constructor].
Qed.

(** With equal totals the rule ships every supply and fills every
    demand. *)
Lemma northwest_sums k : forall i j s d rows cols,
  k = (List.length rows + List.length cols)%nat ->
  0 <= s -> 0 <= d ->
  Forall (fun q => 0 <= q) rows -> Forall (fun q => 0 <= q) cols ->
  s + Qsum rows == d + Qsum cols ->
  nw_sums (northwest k i j s d rows cols) i j (s :: rows) (d :: cols).
Proof.
  induction k as [|k IH]; intros i j s d rows cols Hk Hs Hd Hr Hc Hb.
  - destruct rows; [|simpl in Hk; lia]. destruct cols; [|simpl in Hk; lia].
    simpl in Hb. apply nw_sums_last; lra.
  - pose proof (Qsum_nonneg rows Hr) as Sr.
    pose proof (Qsum_nonneg cols Hc) as Sc.
    destruct rows as [|s' rows']; destruct cols as [|d' cols'];
      cbn [northwest]; simpl in Hk, Hb, Sr, Sc.
    + lia.
    + assert (M : Qmin s d == d) by (apply Q.min_r; simpl in Sc; lra).
      inversion Hc; subst.
      apply nw_sums_col; [|exact M|lra].
      apply IH; try assumption; simpl; try lia; try lra.
    + assert (M : Qmin s d == s) by (apply Q.min_l; simpl in Sr; lra).
      inversion Hr; subst.
      apply nw_sums_row; [|exact M|lra].
      apply IH; try assumption; simpl; try lia; try lra.
    + destruct (Qle_bool s d) eqn:Q.
      * apply Qle_bool_iff in Q.
        assert (M : Qmin s d == s) by (apply Q.min_l; lra).
        inversion Hr; subst.
        apply nw_sums_row; [|exact M|lra].
        apply IH; try assumption; simpl; try lia; try lra.
      * assert (Q' : d < s).
        { apply Qnot_le_lt. intros K. apply Qle_bool_iff in K. congruence. }
        assert (M : Qmin s d == d) by (apply Q.min_r; lra).
        inversion Hc; subst.
        apply nw_sums_col; [|exact M|lra].
        apply IH; try assumption; simpl; try lia; try lra.
Qed.


Lemma connected_incl t t' u v :
  incl t t' -> connected t u v -> connected t' u v.
Proof.
  intros Hi. apply connected_mono.
  intros x y (i & j & Hin & Hxy). apply rt_step.
  exists i, j. split; [now apply Hi|exact Hxy].
Qed.

Lemma nw_shape_last i j x : nw_shape [((i, j), x)] i j 0 0.
Proof.
  repeat split.
  - destruct H as [<-|[]]. simpl. lia.
  - destruct H as [<-|[]]. simpl. lia.
  - destruct H as [<-|[]]. simpl. lia.
  - destruct H as [<-|[]]. simpl. lia.
  - simpl. constructor; [tauto|constructor].
  - intros v Hv Hlo. destruct v as [i'|j']; simpl in Hv.
    + replace i' with i by lia. apply rt_refl.
    + replace j' with j by lia. apply rt_step. exists i, j. simpl. auto.
Qed.

Lemma nw_shape_row E i j x nr nc :
  nw_shape E (S i) j nr nc -> nw_shape (((i, j), x) :: E) i j (S nr) nc.
Proof.
  intros (Hr & Hn & Hc & Hl).
  assert (Hhead : adj (map fst (((i, j), x) :: E)) (Src i) (Snk j)).
  { exists i, j. simpl. auto. }
  assert (Hlift : forall v, connected (map fst E) (Src (S i)) v ->
                            connected (map fst (((i, j), x) :: E)) (Src i) v).
  { intros v Hv. eapply rt_trans; [apply rt_step; exact Hhead|].
    eapply rt_trans.
    - apply connected_sym. apply (connected_incl (map fst E)).
      + intros a Ha. now right.
      + apply (Hc (Snk j)); simpl; lia.
    - apply (connected_incl (map fst E)); [|exact Hv].
      intros a Ha. now right. }
  split; [|split; [|split]].
  - intros e [<-|He]; [simpl; lia|]. specialize (Hr e He). lia.
  - simpl. constructor; [|exact Hn].
    intros K. apply in_map_iff in K. destruct K as (e & Ee & He).
    specialize (Hr e He). rewrite Ee in Hr. simpl in Hr. lia.
  - intros v Hv Hlo. destruct v as [i'|j']; simpl in Hv.
    + destruct (Nat.eq_dec i' i) as [->|Hne]; [apply rt_refl|].
      apply Hlift. apply Hc; simpl; lia.
    + apply Hlift. apply Hc; simpl; lia.
  - simpl. lia.
Qed.

Lemma nw_shape_col E i j x nr nc :
  nw_shape E i (S j) nr nc -> nw_shape (((i, j), x) :: E) i j nr (S nc).
Proof.
  intros (Hr & Hn & Hc & Hl).
  assert (Hlift : forall v, connected (map fst E) (Src i) v ->
                            connected (map fst (((i, j), x) :: E)) (Src i) v).
  { intros v Hv. apply (connected_incl (map fst E)); [|exact Hv].
    intros a Ha. now right. }
  split; [|split; [|split]].
  - intros e [<-|He]; [simpl; lia|]. specialize (Hr e He). lia.
  - simpl. constructor; [|exact Hn].
    intros K. apply in_map_iff in K. destruct K as (e & Ee & He).
    specialize (Hr e He). rewrite Ee in Hr. simpl in Hr. lia.
  - intros v Hv Hlo. destruct v as [i'|j']; simpl in Hv.
    + apply Hlift. apply Hc; simpl; lia.
    + destruct (Nat.eq_dec j' j) as [->|Hne].
      * apply rt_step. exists i, j. simpl. auto.
      * apply Hlift. apply Hc; simpl; lia.
  - simpl. lia.
Qed.

(** The rule visits a staircase of cells from [(i, j)] to the last
    cell. *)
Lemma northwest_shape k : forall i j s d rows cols,
  k = (List.length rows + List.length cols)%nat ->
  nw_shape (northwest k i j s d rows cols) i j
           (List.length rows) (List.length cols).
Proof.
  induction k as [|k IH]; intros i j s d rows cols Hk.
  - destruct rows; [|simpl in Hk; lia]. destruct cols; [|simpl in Hk; lia].
    apply nw_shape_last.
  - destruct rows as [|s' rows']; destruct cols as [|d' cols'];
      cbn [northwest]; simpl in Hk.
    + lia.
    + apply (nw_shape_col _ i j _ 0 (List.length cols')).
      apply (IH i (S j) _ d' [] cols'). simpl. lia.
    + apply (nw_shape_row _ i j _ (List.length rows') 0).
      apply (IH (S i) j s' _ rows' []). simpl. lia.
    + destruct (Qle_bool s d).
      * apply (nw_shape_row _ i j _ (List.length rows') (S (List.length cols'))).
        apply (IH (S i) j s' _ rows' (d' :: cols')). simpl. lia.
      * apply (nw_shape_col _ i j _ (S (List.length rows')) (List.length cols')).
        apply (IH i (S j) _ d' (s' :: rows') cols'). simpl. lia.
Qed.


(** ** The initial state *)

Lemma flow_of_cons a x E i j :
  flow_of ((a, x) :: E) i j
  = if arc_eqb a (i, j) then x else flow_of E i j.
Proof. unfold flow_of. simpl. destruct (arc_eqb a (i, j)); reflexivity. Qed.

Lemma flow_of_absent E i j :
  ~ In (i, j) (map fst E) -> flow_of E i j = 0.
Proof.
  induction E as [|[a x] E IH]; intros H; [reflexivity|].
  rewrite flow_of_cons. simpl in H.
  destruct (arc_eqb a (i, j)) eqn:K.
  - apply arc_eqb_eq in K. tauto.
  - apply IH. tauto.
Qed.

Lemma flow_of_nonneg E i j :
  Forall (fun e => 0 <= snd e) E -> 0 <= flow_of E i j.
Proof.
  induction 1 as [|[a x] E Hx _ IH]; [unfold flow_of; simpl; lra|].
  rewrite flow_of_cons. destruct (arc_eqb a (i, j)); [exact Hx|exact IH].
Qed.

Lemma flow_of_add a x E i j :
  ~ In a (map fst E) ->
  flow_of ((a, x) :: E) i j == add_flow (flow_of E) a x i j.
Proof.
  intros H. rewrite flow_of_cons, add_flow_val.
  destruct (arc_eqb a (i, j)) eqn:K; [|lra].
  apply arc_eqb_eq in K. subst a. rewrite (flow_of_absent E i j H). lra.
Qed.

Lemma rowsum_ext f f' m i :
  (forall j, f i j == f' i j) -> rowsum f m i == rowsum f' m i.
Proof. intros H. unfold rowsum. apply Qsum_map_ext. intros j _. apply H. Qed.

Lemma colsum_ext f f' n j :
  (forall i, f i j == f' i j) -> colsum f n j == colsum f' n j.
Proof. intros H. unfold colsum. apply Qsum_map_ext. intros i _. apply H. Qed.

Lemma rowsum_zero m i : rowsum (fun _ _ => 0) m i == 0.
Proof. unfold rowsum. apply Qsum_map_zero. intros; reflexivity. Qed.

Lemma colsum_zero n j : colsum (fun _ _ => 0) n j == 0.
Proof. unfold colsum. apply Qsum_map_zero. intros; reflexivity. Qed.

Lemma rowsum_flow_of m i : forall E,
  NoDup (map fst E) -> (forall e, In e E -> (snd (fst e) < m)%nat) ->
  rowsum (flow_of E) m i == outflow E i.
Proof.
  induction E as [|[[i0 j0] x] E IH]; intros Hn Hm.
  - apply rowsum_zero.
  - simpl in Hn. inversion Hn as [|? ? Ha Hn']; subst.
    rewrite (rowsum_ext _ (add_flow (flow_of E) (i0, j0) x)).
    + rewrite rowsum_add_flow, outflow_cons, IH.
      * cbn [fst]. pose proof (Hm _ (or_introl eq_refl)) as K. simpl in K.
        assert (Nat.ltb j0 m = true) as -> by (apply Nat.ltb_lt; lia).
        rewrite andb_true_r. lra.
      * exact Hn'.
      * intros e He. apply Hm. now right.
    + intros j. now apply flow_of_add.
Qed.

Lemma colsum_flow_of n j : forall E,
  NoDup (map fst E) -> (forall e, In e E -> (fst (fst e) < n)%nat) ->
  colsum (flow_of E) n j == inflow E j.
Proof.
  induction E as [|[[i0 j0] x] E IH]; intros Hn Hm.
  - apply colsum_zero.
  - simpl in Hn. inversion Hn as [|? ? Ha Hn']; subst.
    rewrite (colsum_ext _ (add_flow (flow_of E) (i0, j0) x)).
    + rewrite colsum_add_flow, inflow_cons, IH.
      * cbn [snd]. pose proof (Hm _ (or_introl eq_refl)) as K. simpl in K.
        assert (Nat.ltb i0 n = true) as -> by (apply Nat.ltb_lt; lia).
        rewrite andb_true_r. lra.
      * exact Hn'.
      * intros e He. apply Hm. now right.
    + intros i. now apply flow_of_add.
Qed.

(** The northwest-corner rule starts the solver in a state that
    satisfies the invariant. *)
Lemma initial_state_Inv g : balanced g -> Inv g (initial_state g).
Proof.
  intros (Hs & Hd & Ps & Pd & Hb).
  unfold initial_state, northwest_corner, n_sources, n_sinks.
  destruct (supply g) as [|s rows] eqn:Es; [congruence|].
  destruct (demand g) as [|d cols] eqn:Ed; [congruence|].
  set (E := northwest (List.length rows + List.length cols) 0 0 s d rows cols).
  inversion Ps as [|? ? Hs0 Pr]; subst. inversion Pd as [|? ? Hd0 Pc]; subst.
  simpl in Hb.
  destruct (northwest_shape (List.length rows + List.length cols)
              0 0 s d rows cols eq_refl) as (Hr & Hn & Hc & Hl).
  destruct (northwest_sums (List.length rows + List.length cols)
              0 0 s d rows cols eq_refl Hs0 Hd0 Pr Pc Hb) as (Ho & Hi & Hp).
  fold E in Hr, Hn, Hc, Hl, Ho, Hi, Hp.
  constructor; unfold n_sources, n_sinks; cbn [tree flow];
    rewrite ?Es, ?Ed; cbn [List.length].
  - lia.
  - apply Forall_forall. intros a Ha. apply in_map_iff in Ha.
    destruct Ha as (e & <- & He). specialize (Hr e He).
    unfold valid_arc. lia.
  - exact Hn.
  - rewrite length_map, Hl. lia.
  - intros v Hv. apply Hc.
    + destruct v; simpl in *; lia.
    + destruct v; lia.
  - intros i j. now apply flow_of_nonneg.
  - intros i j H. rewrite (flow_of_absent E i j H). reflexivity.
  - intros i Hi'. rewrite rowsum_flow_of.
    + rewrite Ho. simpl. rewrite Nat.sub_0_r. reflexivity.
    + exact Hn.
    + intros e He. specialize (Hr e He). unfold Arc in *. lia.
  - intros j Hj'. rewrite colsum_flow_of.
    + rewrite Hi. simpl. rewrite Nat.sub_0_r. reflexivity.
    + exact Hn.
    + intros e He. specialize (Hr e He). unfold Arc in *. lia.
Qed.


(** ** The entering arc and the optimality condition *)

Lemma most_negative_none rc : forall cands best,
  most_negative rc cands best = None ->
  best = None /\ forall a, In a cands -> 0 <= rc a.
Proof.
  induction cands as [|a r IH]; intros best H; simpl in H.
  - split; [exact H|]. intros a [].
  - apply IH in H. destruct H as [Hb Hr].
    destruct best as [b|].
    + destruct (Qlt_le_dec (rc a) (rc b)); discriminate.
    + destruct (Qlt_le_dec (rc a) 0) as [K|K]; [discriminate|].
      split; [reflexivity|]. intros x [<-|Hx]; auto.
Qed.

Lemma most_negative_all_nonneg rc : forall cands,
  (forall a, In a cands -> 0 <= rc a) ->
  most_negative rc cands None = None.
Proof.
  induction cands as [|a r IH]; intros H; simpl; [reflexivity|].
  destruct (Qlt_le_dec (rc a) 0) as [K|K].
  - specialize (H a (or_introl eq_refl)). lra.
  - apply IH. intros x Hx. apply H. now right.
Qed.

Lemma most_negative_some rc : forall cands best a,
  most_negative rc cands best = Some a ->
  (forall b, best = Some b -> rc b < 0) ->
  (In a cands \/ best = Some a) /\ rc a < 0.
Proof.
  induction cands as [|x r IH]; intros best a H Hb; simpl in H.
  - split; [now right|]. now apply Hb.
  - apply IH in H.
    + destruct H as [[H|H] Hr]; [split; [left; now right|exact Hr]|].
      split; [|exact Hr].
      destruct (Qlt_le_dec (rc x) _); [|now right].
      inversion H; subst. left. now left.
    + intros b Eb.
      destruct (Qlt_le_dec (rc x) _) as [K|K]; [|now apply Hb].
      inversion Eb; subst. destruct best as [b0|]; [|exact K].
      specialize (Hb b0 eq_refl). lra.
Qed.

Lemma entering_arc_some g L t e :
  entering_arc g L t = Some e ->
  In e (non_tree_arcs (n_sources g) (n_sinks g) t)
  /\ reduced_cost (arc_cost g) L e < 0.
Proof.
  unfold entering_arc. intros H. apply most_negative_some in H.
  - destruct H as [[H|H] Hr]; [auto|discriminate].
  - intros b Hb. discriminate.
Qed.

(** No entering arc is found exactly in an optimal state. *)
Lemma entering_arc_none g st :
  entering_arc g (tree_potentials (arc_cost g) (tree st)) (tree st) = None
  <-> optimal g st.
Proof.
  unfold entering_arc, optimal. split.
  - intros H. apply most_negative_none in H. tauto.
  - apply most_negative_all_nonneg.
Qed.

(** ** The loop *)

Lemma iteration_Inv g st : Inv g st -> Inv g (iteration g st).
Proof.
  intros HI. unfold iteration.
  destruct (entering_arc g _ (tree st)) as [[i j]|] eqn:E; [|exact HI].
  apply entering_arc_some in E. destruct E as [E _].
  exact (pivot_Inv g st HI i j E).
Qed.

Lemma state_after_Inv g k : forall st,
  Inv g st -> Inv g (state_after g k st).
Proof.
  induction k as [|k IH]; intros st HI; simpl; [exact HI|].
  apply IH. now apply iteration_Inv.
Qed.

(** The loop returns the first optimal state met within the cap, and
    raises after [k] pivots when none of the states before was optimal. *)
Lemma simplex_loop_raise g k : forall st,
  (forall k', (k' < k)%nat -> ~ optimal g (state_after g k' st)) ->
  simplex_loop g k st
  = Raise (NonConvergenceError
             (flow_table (n_sources g) (n_sinks g)
                         (flow (state_after g k st)))).
Proof.
  induction k as [|k IH]; intros st H; simpl; [reflexivity|].
  destruct (entering_arc g _ (tree st)) as [e|] eqn:E.
  - assert (Hit : iteration g st
                  = pivot g (tree_potentials (arc_cost g) (tree st)) st e).
    { unfold iteration. now rewrite E. }
    rewrite <- Hit. apply IH.
    intros k' Hk'. exact (H (S k') (proj1 (Nat.succ_lt_mono _ _) Hk')).
  - exfalso. apply (H 0%nat); [lia|]. simpl. now apply entering_arc_none.
Qed.

(** Every outcome of the loop is one of these two. *)
Lemma simplex_loop_cases g k st :
  (exists k', (k' < k)%nat /\ optimal g (state_after g k' st)
              /\ simplex_loop g k st = Ok (state_after g k' st))
  \/ ((forall k', (k' < k)%nat -> ~ optimal g (state_after g k' st))
      /\ simplex_loop g k st
         = Raise (NonConvergenceError
                    (flow_table (n_sources g) (n_sinks g)
                                (flow (state_after g k st))))).
Proof.
  revert st. induction k as [|k IH]; intros st.
  - right. split; [intros; lia|reflexivity].
  - simpl. destruct (entering_arc g _ (tree st)) as [e|] eqn:E.
    + assert (Hit : iteration g st
                  = pivot g (tree_potentials (arc_cost g) (tree st)) st e).
      { unfold iteration. now rewrite E. }
      assert (Hno : ~ optimal g st).
      { intros K. apply entering_arc_none in K. congruence. }
      rewrite <- Hit.
      destruct (IH (iteration g st)) as [(k' & Hk & Ho & Hr)|[Hn Hr]].
      * left. exists (S k'). split; [lia|]. split; assumption.
      * right. split; [|exact Hr].
        intros [|k'] Hk; [exact Hno|]. simpl. apply Hn. lia.
    + left. exists 0%nat. split; [lia|]. split; [|reflexivity].
      simpl. now apply entering_arc_none.
Qed.


(** ** The assembled plan *)

Lemma Qsum_map_pick (l : list nat) (x0 : nat) (G : nat -> Q) :
  NoDup l ->
  Qsum (map (fun x => if Nat.eqb x0 x then G x else 0) l)
  == if in_dec Nat.eq_dec x0 l then G x0 else 0.
Proof.
  intros H. rewrite <- (Qsum_map_single l x0 (G x0) H).
  apply Qsum_map_ext. intros x _.
  destruct (Nat.eqb_spec x0 x) as [->|_]; reflexivity.
Qed.

Lemma Qsum_seq_pick (k x0 : nat) (G : nat -> Q) :
  Qsum (map (fun x => if Nat.eqb x0 x then G x else 0) (seq 0 k))
  == if Nat.ltb x0 k then G x0 else 0.
Proof.
  rewrite Qsum_map_pick by apply seq_NoDup.
  destruct (in_dec Nat.eq_dec x0 (seq 0 k)) as [H|H];
    rewrite in_seq in H; destruct (Nat.ltb_spec x0 k); try reflexivity; lia.
Qed.

Lemma Qsum_list_prod (h : Arc -> Q) (rs cs : list nat) :
  Qsum (map h (list_prod rs cs))
  == Qsum (map (fun r => Qsum (map (fun k => h (r, k)) cs)) rs).
Proof.
  induction rs as [|r rs IH]; [reflexivity|].
  cbn [list_prod map]. rewrite map_app, Qsum_app, IH, map_map.
  simpl. lra.
Qed.

Lemma kept_true eps q : kept eps q = true <-> eps <= q /\ 0 < q.
Proof.
  unfold kept. rewrite andb_true_iff, negb_true_iff, Qle_bool_iff.
  split; intros [H1 H2]; split; try assumption.
  - apply Qnot_le_lt. intros K. apply Qle_bool_iff in K. congruence.
  - destruct (Qle_bool q 0) eqn:K; [|reflexivity].
    apply Qle_bool_iff in K. lra.
Qed.

Lemma all_arcs_In n m a : In a (all_arcs n m) <-> valid_arc n m a.
Proof.
  pose proof (non_tree_arcs_In n m [] a) as H.
  unfold non_tree_arcs in H. rewrite filter_In in H. simpl in H. tauto.
Qed.

Lemma plan_In eps n m f a q :
  In (a, q) (transport_plan eps n m f)
  <-> valid_arc n m a /\ q = flow_at f a /\ kept eps q = true.
Proof.
  unfold transport_plan, flow_table. rewrite filter_In, in_map_iff. simpl.
  split.
  - intros [(b & E & Hb) K]. inversion E; subst.
    split; [now apply all_arcs_In|]. split; [reflexivity|exact K].
  - intros (Hv & -> & K). split; [|exact K]. exists a.
    split; [reflexivity|now apply all_arcs_In].
Qed.

Lemma plan_positive eps n m f :
  Forall (fun e => 0 < snd e) (transport_plan eps n m f).
Proof.
  apply Forall_forall. intros [a q] H. apply plan_In in H.
  destruct H as (_ & _ & K). apply kept_true in K. simpl. tauto.
Qed.

Lemma NoDup_list_prod (rs cs : list nat) :
  NoDup rs -> NoDup cs -> NoDup (list_prod rs cs).
Proof.
  intros Hr Hc. induction Hr as [|r rs Hn _ IH]; [constructor|].
  cbn [list_prod]. apply NoDup_app.
  - clear - Hc. induction Hc as [|k cs Hk _ IH]; simpl; constructor.
    + intros K. apply in_map_iff in K. destruct K as (k' & E & Hk').
      inversion E; subst. contradiction.
    + exact IH.
  - exact IH.
  - intros [r' k] H1 H2. apply in_map_iff in H1.
    destruct H1 as (k' & E & _). inversion E; subst.
    apply in_prod_iff in H2. tauto.
Qed.

Lemma plan_keys eps n m f :
  map fst (transport_plan eps n m f)
  = filter (fun a => kept eps (flow_at f a)) (all_arcs n m).
Proof.
  unfold transport_plan, flow_table.
  induction (all_arcs n m) as [|a l IH]; [reflexivity|].
  cbn [map filter snd]. destruct (kept eps (flow_at f a)); simpl; now rewrite IH.
Qed.

Lemma plan_keys_NoDup eps n m f :
  NoDup (map fst (transport_plan eps n m f)).
Proof.
  rewrite plan_keys. apply NoDup_filter.
  apply NoDup_list_prod; apply seq_NoDup.
Qed.

(** The entries of the plan lie on the tree. *)
Lemma plan_length g st eps :
  Inv g st ->
  (List.length (transport_plan eps (n_sources g) (n_sinks g) (flow st)) + 1
   <= n_sources g + n_sinks g)%nat.
Proof.
  intros HI. rewrite <- (inv_size HI).
  apply Nat.add_le_mono_r.
  rewrite <- (length_map fst).
  apply NoDup_incl_length; [apply plan_keys_NoDup|].
  intros a Ha. apply in_map_iff in Ha. destruct Ha as ([a' q] & <- & H).
  apply plan_In in H. destruct H as (_ & -> & K). simpl.
  apply kept_true in K. destruct K as [_ K].
  destruct (in_dec arc_dec a' (tree st)) as [Hin|Hn]; [exact Hin|].
  destruct a' as [i j]. pose proof (inv_support HI i j Hn) as Z.
  unfold flow_at in K. simpl in K. lra.
Qed.


(** ** The graph of two valid histograms *)

Lemma Qsum_scale {A : Type} (h : A -> Q) (k : Q) l :
  Qsum (map (fun x => h x * k) l) == Qsum (map h l) * k.
Proof.
  induction l as [|x l IH]; simpl.
  - lra.
  - rewrite IH. lra.
Qed.

Lemma graph_of_valid cfg A B g :
  valid_histogram A -> valid_histogram B ->
  bipartite_transport_graph cfg A B = Ok g ->
  exists scale, scale == 1 /\ g = dense_graph (cost_model cfg) A B scale.
Proof.
  intros (_ & _ & _ & Ta) (_ & _ & _ & Tb). unfold bipartite_transport_graph.
  destruct (Qlt_le_dec _ _) as [H|H].
  - destruct (mass_mismatch_policy cfg); [discriminate|].
    intros E. inversion E; subst. eexists. split; [|reflexivity].
    rewrite Ta, Tb. reflexivity.
  - intros E. inversion E; subst. exists 1. split; reflexivity.
Qed.

Lemma dense_graph_supply c A B scale i :
  nth i (supply (dense_graph c A B scale)) 0 = mass A i.
Proof.
  unfold mass. cbn [supply dense_graph].
  change 0 with (bin_mass no_bin). apply map_nth.
Qed.

Lemma dense_graph_demand c A B scale j :
  scale == 1 ->
  nth j (demand (dense_graph c A B scale)) 0 == mass B j.
Proof.
  intros Hs. unfold mass. cbn [demand dense_graph].
  destruct (Nat.lt_ge_cases j (List.length B)) as [H|H].
  - rewrite (nth_indep _ 0 ((fun b => bin_mass b * scale) no_bin))
      by now rewrite length_map.
    rewrite (map_nth (fun b => bin_mass b * scale)). rewrite Hs. lra.
  - rewrite !nth_overflow; [reflexivity|exact H|now rewrite length_map].
Qed.

Lemma dense_graph_balanced c A B scale :
  valid_histogram A -> valid_histogram B -> scale == 1 ->
  balanced (dense_graph c A B scale).
Proof.
  intros (Na & _ & Pa & Ta) (Nb & _ & Pb & Tb) Hs.
  unfold balanced. cbn [supply demand dense_graph].
  split; [|split; [|split; [|split]]].
  - destruct A; [congruence|discriminate].
  - destruct B; [congruence|discriminate].
  - apply Forall_forall. intros q Hq. apply in_map_iff in Hq.
    destruct Hq as (b & <- & Hb). rewrite Forall_forall in Pa.
    apply Qlt_le_weak. now apply Pa.
  - apply Forall_forall. intros q Hq. apply in_map_iff in Hq.
    destruct Hq as (b & <- & Hb). rewrite Forall_forall in Pb.
    specialize (Pb b Hb). simpl in Pb. rewrite Hs. lra.
  - rewrite Qsum_scale. unfold total_mass in Ta, Tb. rewrite Ta, Tb, Hs. lra.
Qed.

Lemma dense_graph_sizes c A B scale :
  n_sources (dense_graph c A B scale) = List.length A
  /\ n_sinks (dense_graph c A B scale) = List.length B.
Proof.
  unfold n_sources, n_sinks. cbn [supply demand dense_graph].
  now rewrite !length_map.
Qed.

(** ** The pipeline *)

Lemma solve_transport_ok cfg A B p cost :
  solve_transport cfg A B = Ok (p, cost) ->
  exists g st,
    bipartite_transport_graph cfg A B = Ok g
    /\ network_simplex_solver (max_iterations cfg) g = Ok st
    /\ p = transport_plan (tolerance cfg) (n_sources g) (n_sinks g) (flow st)
    /\ cost = total_cost (arc_cost g) p.
Proof.
  unfold solve_transport, bind.
  destruct (bipartite_transport_graph cfg A B) as [g|e] eqn:Hg; [|discriminate].
  destruct (network_simplex_solver (max_iterations cfg) g) as [st|e] eqn:Hs;
    [|discriminate].
  intros E. inversion E; subst. exists g, st.
  split; [reflexivity|]. split; [exact Hs|]. split; reflexivity.
Qed.

Lemma solver_ok_Inv g cap st :
  balanced g -> network_simplex_solver cap g = Ok st ->
  Inv g st /\ optimal g st.
Proof.
  intros Hb. unfold network_simplex_solver.
  destruct (simplex_loop_cases g cap (initial_state g))
    as [(k & _ & Ho & ->)|[_ ->]]; [|discriminate].
  intros E. inversion E; subst. split; [|exact Ho].
  apply state_after_Inv. now apply initial_state_Inv.
Qed.

(** A plan returned for two valid histograms comes from a state that
    satisfies the invariant on their dense graph. *)
Lemma solve_transport_Inv cfg A B p cost :
  valid_histogram A -> valid_histogram B ->
  solve_transport cfg A B = Ok (p, cost) ->
  exists scale st,
    scale == 1
    /\ Inv (dense_graph (cost_model cfg) A B scale) st
    /\ optimal (dense_graph (cost_model cfg) A B scale) st
    /\ p = transport_plan (tolerance cfg) (List.length A) (List.length B)
                          (flow st)
    /\ cost = total_cost (arc_cost (dense_graph (cost_model cfg) A B scale)) p.
Proof.
  intros Va Vb H. apply solve_transport_ok in H.
  destruct H as (g & st & Hg & Hs & Hp & Hc).
  destruct (graph_of_valid cfg A B g Va Vb Hg) as (scale & Hsc & ->).
  destruct (dense_graph_sizes (cost_model cfg) A B scale) as [En Em].
  rewrite En, Em in Hp.
  destruct (solver_ok_Inv _ _ _ (dense_graph_balanced _ A B scale Va Vb Hsc) Hs)
    as [HI Ho].
  exists scale, st.
  split; [exact Hsc|]. split; [exact HI|]. split; [exact Ho|].
  split; [exact Hp|exact Hc].
Qed.


(** ** The construction of a histogram *)

Lemma lex_compare_antisym a : forall b,
  lex_compare b a = CompOpp (lex_compare a b).
Proof.
  induction a as [|x a IH]; intros [|y b]; simpl; try reflexivity.
  rewrite (Z.compare_antisym x y).
  destruct (Z.compare x y); simpl; [apply IH|reflexivity|reflexivity].
Qed.

Lemma lex_compare_refl a : lex_compare a a = Eq.
Proof.
  induction a as [|x a IH]; simpl; [reflexivity|].
  now rewrite Z.compare_refl.
Qed.

Lemma lex_lt_trans a : forall b c, lex_lt a b -> lex_lt b c -> lex_lt a c.
Proof.
  unfold lex_lt.
  induction a as [|x a IH]; intros [|y b] [|z c] H1 H2; simpl in *;
    try discriminate; try reflexivity.
  destruct (Z.compare_spec x y) as [->|Hxy|Hxy]; try discriminate.
  - destruct (Z.compare y z); try discriminate; [|reflexivity].
    now apply (IH b c).
  - destruct (Z.compare_spec y z) as [->|Hyz|Hyz]; try discriminate.
    + apply Z.compare_lt_iff in Hxy. now rewrite Hxy.
    + assert (x < z)%Z as K by lia. apply Z.compare_lt_iff in K.
      now rewrite K.
Qed.

Lemma lex_lt_irrefl a : ~ lex_lt a a.
Proof. unfold lex_lt. rewrite lex_compare_refl. discriminate. Qed.

Lemma add_sample_keys idx l k :
  In k (map fst (add_sample idx l)) -> k = idx \/ In k (map fst l).
Proof.
  induction l as [|[k0 c] l IH]; simpl.
  - intros [H|[]]. now left.
  - destruct (lex_compare idx k0); simpl.
    + tauto.
    + intros [H|H]; [now left|now right].
    + intros [H|H]; [right; now left|].
      destruct (IH H) as [K|K]; [now left|right; now right].
Qed.

Lemma add_sample_sorted idx l :
  sorted_cells l -> sorted_cells (add_sample idx l).
Proof.
  unfold sorted_cells.
  induction l as [|[k c] l IH]; intros H; simpl.
  - repeat constructor.
  - inversion H as [|? ? Hs Hf]; subst.
    destruct (lex_compare idx k) eqn:E; simpl.
    + constructor; assumption.
    + constructor; [exact H|]. constructor; [exact E|].
      rewrite Forall_forall in Hf |- *. intros y Hy.
      apply (lex_lt_trans idx k y E). now apply Hf.
    + constructor; [now apply IH|].
      rewrite Forall_forall in Hf |- *. intros y Hy.
      apply add_sample_keys in Hy. destruct Hy as [->|Hy]; [|now apply Hf].
      unfold lex_lt. rewrite lex_compare_antisym, E. reflexivity.
Qed.

Lemma add_sample_count idx l :
  count_sum (add_sample idx l) = S (count_sum l).
Proof.
  induction l as [|[k c] l IH]; simpl; [reflexivity|].
  destruct (lex_compare idx k); simpl.
  - rewrite Pos2Nat.inj_succ. reflexivity.
  - reflexivity.
  - rewrite IH. lia.
Qed.

Lemma add_sample_nonempty idx l : add_sample idx l <> [].
Proof.
  destruct l as [|[k c] l]; simpl; [discriminate|].
  destruct (lex_compare idx k); discriminate.
Qed.

Lemma occupied_fold widths samples : forall acc,
  sorted_cells acc ->
  let cells := fold_left (fun acc x => add_sample (cell_of widths x) acc)
                         samples acc in
  sorted_cells cells
  /\ count_sum cells = (List.length samples + count_sum acc)%nat
  /\ (acc <> [] \/ samples <> [] -> cells <> []).
Proof.
  induction samples as [|x samples IH]; intros acc Hs; simpl.
  - split; [exact Hs|]. split; [reflexivity|]. intros [H|H]; congruence.
  - destruct (IH (add_sample (cell_of widths x) acc)
                 (add_sample_sorted _ _ Hs)) as (H1 & H2 & H3).
    split; [exact H1|]. split.
    + rewrite H2, add_sample_count. lia.
    + intros _. apply H3. left. apply add_sample_nonempty.
Qed.

Lemma occupied_cells_spec widths samples :
  sorted_cells (occupied_cells widths samples)
  /\ count_sum (occupied_cells widths samples) = List.length samples
  /\ (occupied_cells widths samples = [] <-> samples = []).
Proof.
  destruct (occupied_fold widths samples [] (SSorted_nil _))
    as (H1 & H2 & H3).
  fold (occupied_cells widths samples) in H1, H2, H3.
  split; [exact H1|]. split; [simpl in H2; lia|]. split.
  - intros E. destruct samples as [|x r]; [reflexivity|].
    exfalso. apply H3; [right; discriminate|exact E].
  - intros ->. reflexivity.
Qed.

Lemma sorted_cells_NoDup l : sorted_cells l -> NoDup (map fst l).
Proof.
  unfold sorted_cells. induction 1 as [|k ks _ IH Hf]; constructor.
  - intros K. rewrite Forall_forall in Hf.
    exact (lex_lt_irrefl k (Hf k K)).
  - exact IH.
Qed.

Lemma cells_mass (n : positive) l :
  Qsum (map (fun kc : list Z * positive => Zpos (snd kc) # n) l)
  == Z.of_nat (count_sum l) # n.
Proof.
  induction l as [|[k c] l IH].
  - reflexivity.
  - cbn [map Qsum fold_right count_sum snd].
    fold (Qsum (map (fun kc : list Z * positive => Zpos (snd kc) # n) l)).
    fold (count_sum l).
    rewrite IH. rewrite Nat2Z.inj_add, positive_nat_Z.
    unfold Qeq, Qplus. cbn [Qnum Qden]. rewrite Pos2Z.inj_mul. ring.
Qed.

(** What the constructor returns satisfies the invariants of the data
    model. *)
Lemma sparse_histogram_valid samples widths h :
  sparse_histogram samples widths = Ok h -> valid_histogram h.
Proof.
  unfold sparse_histogram.
  destruct samples as [|x r] eqn:Es; [discriminate|]. rewrite <- Es.
  destruct (occupied_cells_spec widths samples) as (Hs & Hc & Hn).
  destruct (occupied_cells widths samples) as [|kc cells] eqn:Ec;
    [discriminate|].
  intros E. injection E as <-.
  set (n := Pos.of_nat (List.length samples)).
  change (make_bin widths n kc :: map (make_bin widths n) cells)
    with (map (make_bin widths n) (kc :: cells)).
  split; [discriminate|]. split; [|split].
  - rewrite map_map. cbn [bin_index make_bin].
    exact (sorted_cells_NoDup _ Hs).
  - apply Forall_forall. intros b Hb. apply in_map_iff in Hb.
    destruct Hb as (kc' & <- & _). reflexivity.
  - unfold total_mass. rewrite map_map. cbn [bin_mass make_bin].
    rewrite cells_mass, Hc. unfold n.
    assert (L : (0 < List.length samples)%nat) by (rewrite Es; simpl; lia).
    unfold Qeq. simpl. rewrite Z.mul_1_r.
    destruct (List.length samples) as [|k]; [lia|].
    rewrite <- Pos.of_nat_succ. now rewrite Zpos_P_of_succ_nat, Nat2Z.inj_succ.
Qed.

(** C4. The constructor raises EmptyInputError exactly for zero samples,
    which is also exactly when no cell is occupied; it raises no other
    error, and for at least one sample it returns a histogram with at
    least one bin that satisfies the invariants of the data model. *)
Theorem empty_input_error samples widths :
  (sparse_histogram samples widths = Raise EmptyInputError <-> samples = [])
  /\ (occupied_cells widths samples = [] <-> samples = [])
  /\ (forall e, sparse_histogram samples widths = Raise e ->
                e = EmptyInputError /\ samples = [])
  /\ (samples <> [] ->
      exists h, sparse_histogram samples widths = Ok h
                /\ h <> [] /\ valid_histogram h).
Proof.
  destruct (occupied_cells_spec widths samples) as (_ & _ & Hn).
  assert (Hok : samples <> [] ->
                exists h, sparse_histogram samples widths = Ok h
                          /\ h <> [] /\ valid_histogram h).
  { intros Hne. destruct (sparse_histogram samples widths) as [h|e] eqn:E.
    - exists h. split; [reflexivity|].
      pose proof (sparse_histogram_valid samples widths h E) as V.
      split; [exact (proj1 V)|exact V].
    - exfalso. unfold sparse_histogram in E.
      destruct samples as [|x r]; [congruence|].
      assert (K : occupied_cells widths (x :: r) <> []).
      { intros K. apply Hn in K. discriminate. }
      destruct (occupied_cells widths (x :: r)); [congruence|discriminate E]. }
  split; [|split; [exact Hn|split; [|exact Hok]]].
  - split.
    + intros E. destruct samples as [|x r]; [reflexivity|].
      destruct Hok as (h & Eh & _); [discriminate|]. congruence.
    + intros ->. reflexivity.
  - intros e E. destruct samples as [|x r].
    + simpl in E. inversion E. auto.
    + destruct Hok as (h & Eh & _); [discriminate|]. congruence.
Qed.

Lemma empty_input_error_witness :
  sparse_histogram [] [1] = Raise EmptyInputError
  /\ exists h, sparse_histogram [[0]; [1]; [2]; [2]; [2]] [1] = Ok h
               /\ h <> [] /\ valid_histogram h.
Proof.
  split.
  - apply (proj1 (empty_input_error [] [1])). reflexivity.
  - apply (proj2 (proj2 (proj2
             (empty_input_error [[0]; [1]; [2]; [2]; [2]] [1])))).
    discriminate.
Defined.

(** ** Looking an arc up in a list of entries *)

Lemma flow_of_cases E i j :
  flow_of E i j = 0 \/ In ((i, j), flow_of E i j) E.
Proof.
  induction E as [|[a x] E IH]; [now left|].
  rewrite flow_of_cons. destruct (arc_eqb a (i, j)) eqn:K.
  - apply arc_eqb_eq in K. subst. right. now left.
  - destruct IH as [IH|IH]; [now left|right; now right].
Qed.

(** ** The cost of a flow *)

Lemma Qsum_pick_arc (l : list Arc) (a0 : Arc) (G : Arc -> Q) :
  NoDup l ->
  Qsum (map (fun a => if arc_eqb a0 a then G a else 0) l)
  == if in_dec arc_dec a0 l then G a0 else 0.
Proof.
  induction 1 as [|x l Hx Hl IH]; simpl.
  - reflexivity.
  - rewrite IH. destruct (arc_eqb a0 x) eqn:K.
    + apply arc_eqb_eq in K. subst x.
      destruct (arc_dec a0 a0) as [E|N]; [|congruence].
      destruct (in_dec arc_dec a0 l); [contradiction|lra].
    + apply arc_eqb_neq in K.
      destruct (arc_dec x a0) as [E|N]; [congruence|].
      destruct (in_dec arc_dec a0 l); lra.
Qed.

Lemma all_arcs_NoDup n m : NoDup (all_arcs n m).
Proof. apply NoDup_list_prod; apply seq_NoDup. Qed.

Lemma flow_cost_add_flow c n m f a delta :
  valid_arc n m a ->
  flow_cost c n m (add_flow f a delta)
  == flow_cost c n m f + delta * c (fst a) (snd a).
Proof.
  intros Hv. unfold flow_cost.
  rewrite (Qsum_map_ext _
             (fun b => flow_at f b * c (fst b) (snd b)
                       + (if arc_eqb a b
                          then delta * c (fst b) (snd b) else 0))).
  - rewrite Qsum_map_plus.
    rewrite (Qsum_pick_arc (all_arcs n m) a
               (fun b => delta * c (fst b) (snd b)) (all_arcs_NoDup n m)).
    destruct (in_dec arc_dec a (all_arcs n m)) as [_|N]; [reflexivity|].
    exfalso. apply N. now apply all_arcs_In.
  - intros [i j] _. unfold flow_at. cbn [fst snd]. rewrite add_flow_val.
    destruct (arc_eqb a (i, j)); lra.
Qed.

Lemma push_cost c n m f theta u v :
  proper n m u v ->
  flow_cost c n m (push f theta u v)
  == flow_cost c n m f + theta * scost c u v.
Proof.
  intros (Hu & Hv & Hk).
  destruct u as [i0|j0], v as [i1|j1]; try contradiction; simpl in *.
  - rewrite flow_cost_add_flow by (split; assumption). reflexivity.
  - rewrite flow_cost_add_flow by (split; assumption). simpl. lra.
Qed.

Lemma push_walk_cost c n m theta : forall w f,
  chain (proper n m) w ->
  flow_cost c n m (push_walk f theta w)
  == flow_cost c n m f + theta * walk_cost c w.
Proof.
  induction w as [|u r IH]; intros f C.
  - simpl. lra.
  - destruct r as [|v r'].
    + simpl. lra.
    + destruct C as [Huv C].
      change (push_walk f theta (u :: v :: r'))
        with (push_walk (push f theta u v) theta (v :: r')).
      rewrite (IH _ C), (push_cost c n m f theta u v Huv).
      change (walk_cost c (u :: v :: r'))
        with (scost c u v + walk_cost c (v :: r')).
      lra.
Qed.

(** Along tree arcs the cost of a walk is the drop of potential. *)
Lemma walk_cost_link c t pot : forall r u,
  chain (link c t pot) (u :: r) ->
  walk_cost c (u :: r) == pot u - pot (last r u).
Proof.
  induction r as [|v r IH]; intros u C.
  - simpl. lra.
  - destruct C as [[_ Huv] C].
    change (walk_cost c (u :: v :: r)) with (scost c u v + walk_cost c (v :: r)).
    rewrite (IH v C), (last_cons r u v). lra.
Qed.

(** ** The cost of a pivot *)

Section PivotCost.

Variable g : FlowGraph.
Variable st : State.
Hypothesis HI : Inv g st.
Variables i j : nat.
Hypothesis He : In (i, j) (non_tree_arcs (n_sources g) (n_sinks g) (tree st)).

Let L := tree_potentials (arc_cost g) (tree st).
Let tp := tree_path L (Snk j) (Src i).
Let th := theta_of (flow st) (backward_arcs tp).

Lemma pivot_flow_walk :
  flow (pivot g L st (i, j)) = push_walk (flow st) th (Src i :: tp).
Proof. reflexivity. Qed.

Lemma cycle_proper :
  chain (proper (n_sources g) (n_sinks g)) (Src i :: tp).
Proof.
  pose proof (tp_adj g st HI i j He) as C.
  destruct (tp_ends g st HI i j He) as (r & Et & _).
  fold L tp in C, Et. rewrite Et in C |- *. split.
  - destruct (entering_valid g st i j He) as [Hi Hj].
    repeat split; assumption.
  - revert C. apply chain_impl_in. intros u v _ _ A.
    exact (adj_proper _ _ (tree st) u v (inv_valid HI) A).
Qed.

(** A pivot changes the cost by theta times the reduced cost of the
    entering arc. *)
Lemma pivot_cost :
  flow_cost (arc_cost g) (n_sources g) (n_sinks g) (flow (pivot g L st (i, j)))
  == flow_cost (arc_cost g) (n_sources g) (n_sinks g) (flow st)
     + th * reduced_cost (arc_cost g) L (i, j).
Proof.
  rewrite pivot_flow_walk, (push_walk_cost _ _ _ th _ _ cycle_proper).
  pose proof (tp_chain g st HI i j He) as C.
  destruct (tp_ends g st HI i j He) as (r & Et & Hl).
  fold L tp in C, Et. rewrite Et in C |- *.
  change (walk_cost (arc_cost g) (Src i :: Snk j :: r))
    with (arc_cost g i j + walk_cost (arc_cost g) (Snk j :: r)).
  rewrite (walk_cost_link _ _ _ r (Snk j) C), Hl.
  unfold reduced_cost. cbn [fst snd]. lra.
Qed.

End PivotCost.

Lemma flow_of_In E : forall a q,
  NoDup (map fst E) -> In (a, q) E -> flow_of E (fst a) (snd a) = q.
Proof.
  induction E as [|[b x] E IH]; intros a q Hn H; [contradiction|].
  simpl in Hn. inversion Hn as [|? ? Hb Hn']; subst.
  destruct a as [i j]. cbn [fst snd]. rewrite flow_of_cons.
  destruct H as [H|H].
  - inversion H; subst. now rewrite arc_eqb_refl.
  - destruct (arc_eqb b (i, j)) eqn:K.
    + apply arc_eqb_eq in K. subst b. exfalso. apply Hb.
      apply in_map_iff. exists ((i, j), q). auto.
    + exact (IH (i, j) q Hn' H).
Qed.

(** ** The worked examples of the design document *)

(** One bin at 0 against one bin at 10, squared distance: all the mass
    moves, at cost 100. *)
Example two_point_example :
  reduced (solve_transport (config_of 100 0)
             (histogram_of [[0]] [1]) (histogram_of [[10]] [1]))
  = Some ([((0%nat, 0%nat), 1)], 100).
Proof. vm_compute. reflexivity. Qed.

(** Masses 0.6 and 0.4 against 0.4 and 0.6: 0.4 stays in each bin and
    0.2 moves from the first to the second, at cost 0.2. *)
Example split_example :
  reduced (solve_transport (config_of 100 0)
             (histogram_of [[0]; [0]; [0]; [1]; [1]] [1])
             (histogram_of [[0]; [0]; [1]; [1]; [1]] [1]))
  = Some ([((0%nat, 0%nat), 2 # 5); ((0%nat, 1%nat), 1 # 5);
           ((1%nat, 1%nat), 2 # 5)], 1 # 5).
Proof. vm_compute. reflexivity. Qed.

(** ** Statements about the solver and its plan *)

Lemma one_point_valid : valid_histogram one_point.
Proof. apply (sparse_histogram_valid [[0]] [1]). reflexivity. Defined.

Lemma three_cells_valid : valid_histogram three_cells.
Proof.
  apply (sparse_histogram_valid [[0]; [1]; [2]; [2]; [2]] [1]). reflexivity.
Defined.

Lemma four_cells_valid : valid_histogram four_cells.
Proof.
  apply (sparse_histogram_valid [[0; 0]; [0; 10]; [1; 0]; [1; 10]] [1; 1]).
  reflexivity.
Defined.

(** C6. Every plan returned for two valid histograms has strictly
    positive entries only, at most one entry per arc, and at most
    (number of source bins + number of sink bins - 1) entries. *)
Theorem plan_sparsity cfg A B p cost :
  valid_histogram A -> valid_histogram B ->
  solve_transport cfg A B = Ok (p, cost) ->
  Forall (fun e => 0 < snd e) p
  /\ NoDup (map fst p)
  /\ (List.length p <= List.length A + List.length B - 1)%nat.
Proof.
  intros Va Vb H.
  destruct (solve_transport_Inv cfg A B p cost Va Vb H)
    as (scale & st & Hsc & HI & _ & -> & _).
  destruct (dense_graph_sizes (cost_model cfg) A B scale) as [En Em].
  split; [apply plan_positive|]. split; [apply plan_keys_NoDup|].
  pose proof (plan_length _ st (tolerance cfg) HI) as L.
  rewrite En, Em in L. lia.
Qed.

Lemma plan_sparsity_witness :
  Forall (fun e => 0 < snd e) (plan_of quarter_run)
  /\ NoDup (map fst (plan_of quarter_run))
  /\ (List.length (plan_of quarter_run)
      <= List.length one_point + List.length three_cells - 1)%nat.
Proof.
  apply (plan_sparsity (config_of 10 (1 # 4)) one_point three_cells
           (plan_of quarter_run) (cost_of quarter_run)
           one_point_valid three_cells_valid).
  vm_compute. reflexivity.
Defined.

(** *** The flow carried by the error *)

Lemma table_keys n m f : map fst (flow_table n m f) = all_arcs n m.
Proof. unfold flow_table. rewrite map_map. apply map_id. Qed.

Lemma plan_at_table n m f i j :
  valid_arc n m (i, j) -> plan_at (flow_table n m f) i j = f i j.
Proof.
  intros Hv. unfold plan_at.
  apply (flow_of_In (flow_table n m f) (i, j) (f i j)).
  - rewrite table_keys. apply all_arcs_NoDup.
  - unfold flow_table.
    change ((i, j), f i j)
      with ((fun a : Arc => (a, flow_at f a)) (i, j)).
    apply in_map. now apply all_arcs_In.
Qed.

Lemma plan_at_table_nonneg n m f i j :
  (forall a b, 0 <= f a b) -> 0 <= plan_at (flow_table n m f) i j.
Proof.
  intros Hf. unfold plan_at.
  destruct (flow_of_cases (flow_table n m f) i j) as [E|H].
  - rewrite E. lra.
  - unfold flow_table in H. apply in_map_iff in H.
    destruct H as ([a b] & E & _). inversion E as [[Ea Eb K]].
    unfold flow_table. rewrite <- K. apply Hf.
Qed.

Lemma outflow_map f i : forall l : list Arc,
  outflow (map (fun a => (a, flow_at f a)) l) i
  == Qsum (map (fun a => if Nat.eqb (fst a) i then flow_at f a else 0) l).
Proof.
  induction l as [|a l IH]; [reflexivity|].
  cbn [map]. rewrite outflow_cons, IH. simpl. lra.
Qed.

Lemma inflow_map f j : forall l : list Arc,
  inflow (map (fun a => (a, flow_at f a)) l) j
  == Qsum (map (fun a => if Nat.eqb (snd a) j then flow_at f a else 0) l).
Proof.
  induction l as [|a l IH]; [reflexivity|].
  cbn [map]. rewrite inflow_cons, IH. simpl. lra.
Qed.

Lemma outflow_table n m f i :
  (i < n)%nat -> outflow (flow_table n m f) i == rowsum f m i.
Proof.
  intros Hi. unfold flow_table, all_arcs.
  rewrite outflow_map, Qsum_list_prod. cbn [fst].
  rewrite (Qsum_map_ext _
             (fun r => if Nat.eqb i r
                       then Qsum (map (fun k => flow_at f (r, k)) (seq 0 m))
                       else 0)).
  - rewrite Qsum_seq_pick.
    assert (Nat.ltb i n = true) as -> by now apply Nat.ltb_lt.
    reflexivity.
  - intros r _. rewrite (Nat.eqb_sym i r).
    destruct (Nat.eqb r i); [reflexivity|].
    apply Qsum_map_zero. intros; reflexivity.
Qed.

Lemma inflow_table n m f j :
  (j < m)%nat -> inflow (flow_table n m f) j == colsum f n j.
Proof.
  intros Hj. unfold flow_table, all_arcs, colsum.
  rewrite inflow_map, Qsum_list_prod. cbn [snd].
  apply Qsum_map_ext. intros r _.
  rewrite (Qsum_map_ext _
             (fun k => if Nat.eqb j k then flow_at f (r, k) else 0)).
  - rewrite Qsum_seq_pick.
    assert (Nat.ltb j m = true) as -> by now apply Nat.ltb_lt.
    reflexivity.
  - intros k _. rewrite (Nat.eqb_sym j k). reflexivity.
Qed.

Lemma total_cost_table c n m f :
  total_cost c (flow_table n m f) == flow_cost c n m f.
Proof.
  unfold total_cost, flow_cost, flow_table. rewrite map_map. reflexivity.
Qed.

(** *** The cost along a run *)

(** A pivot never raises the cost: theta is not negative and the
    entering arc has a negative reduced cost. *)
Lemma iteration_cost_le g st :
  Inv g st ->
  flow_cost (arc_cost g) (n_sources g) (n_sinks g) (flow (iteration g st))
  <= flow_cost (arc_cost g) (n_sources g) (n_sinks g) (flow st).
Proof.
  intros HI. unfold iteration.
  destruct (entering_arc g _ (tree st)) as [[i j]|] eqn:E; [|lra].
  apply entering_arc_some in E. destruct E as [E R].
  rewrite (pivot_cost g st HI i j E).
  pose proof (th_nonneg g st HI i j) as T.
  match goal with
  | |- _ + ?th * ?rc <= _ =>
      assert (th * rc <= 0);
      [destruct (Qlt_le_dec 0 th) as [P|P];
       [setoid_replace 0 with (th * 0) by ring;
        rewrite Qmult_le_l by exact P; lra
       |assert (Z : th == 0) by lra; rewrite Z; lra]
      |lra]
  end.
Qed.

Lemma state_after_cost_le g k : forall k' st,
  (k <= k')%nat -> Inv g st ->
  flow_cost (arc_cost g) (n_sources g) (n_sinks g)
    (flow (state_after g k' st))
  <= flow_cost (arc_cost g) (n_sources g) (n_sinks g)
       (flow (state_after g k st)).
Proof.
  induction k as [|k IH]; intros k' st Hk HI.
  - clear Hk. revert st HI. induction k' as [|k' IH']; intros st HI.
    + simpl. lra.
    + cbn [state_after].
      apply Qle_trans
        with (flow_cost (arc_cost g) (n_sources g) (n_sinks g)
                (flow (iteration g st))).
      * apply IH'. now apply iteration_Inv.
      * now apply iteration_cost_le.
  - destruct k' as [|k']; [lia|]. cbn [state_after].
    apply IH; [lia|now apply iteration_Inv].
Qed.

(** C5. When none of the states met before the iteration cap is optimal,
    the solver raises NonConvergenceError and so does the pipeline: no
    plan is returned. The error carries one entry for every arc of the
    graph, the flow of the state reached at the cap. For two valid
    histograms that flow is feasible (no negative entry, every source bin
    ships its mass and every sink bin receives its mass) and costs no more
    than the flow of any state met during the run: it is the best flow
    found so far. *)
Theorem iteration_cap_raises cfg A B g :
  bipartite_transport_graph cfg A B = Ok g ->
  (forall k, (k < max_iterations cfg)%nat ->
             ~ optimal g (state_after g k (initial_state g))) ->
  exists best,
    network_simplex_solver (max_iterations cfg) g
    = Raise (NonConvergenceError best)
    /\ solve_transport cfg A B = Raise (NonConvergenceError best)
    /\ (forall r, solve_transport cfg A B <> Ok r)
    /\ map fst best = all_arcs (n_sources g) (n_sinks g)
    /\ (forall i j, (i < n_sources g)%nat -> (j < n_sinks g)%nat ->
          plan_at best i j
          = flow (state_after g (max_iterations cfg) (initial_state g)) i j)
    /\ (valid_histogram A -> valid_histogram B ->
        (forall i j, 0 <= plan_at best i j)
        /\ (forall i, (i < List.length A)%nat -> outflow best i == mass A i)
        /\ (forall j, (j < List.length B)%nat -> inflow best j == mass B j)
        /\ (forall k, (k <= max_iterations cfg)%nat ->
              total_cost (arc_cost g) best
              <= flow_cost (arc_cost g) (n_sources g) (n_sinks g)
                   (flow (state_after g k (initial_state g))))).
Proof.
  intros Hg Hn.
  pose proof (simplex_loop_raise g (max_iterations cfg) (initial_state g) Hn)
    as Hr.
  fold (network_simplex_solver (max_iterations cfg) g) in Hr.
  set (last := state_after g (max_iterations cfg) (initial_state g)) in *.
  exists (flow_table (n_sources g) (n_sinks g) (flow last)).
  assert (Hs : solve_transport cfg A B
               = Raise (NonConvergenceError
                          (flow_table (n_sources g) (n_sinks g) (flow last)))).
  { unfold solve_transport, bind. rewrite Hg, Hr. reflexivity. }
  split; [exact Hr|]. split; [exact Hs|].
  split; [intros r K; rewrite Hs in K; discriminate|].
  split; [apply table_keys|].
  split; [intros i j Hi Hj; apply plan_at_table; split; assumption|].
  intros Va Vb.
  destruct (graph_of_valid cfg A B g Va Vb Hg) as (scale & Hsc & Eg).
  assert (Hb : balanced g)
    by (rewrite Eg; now apply dense_graph_balanced).
  assert (HI : Inv g last)
    by (apply state_after_Inv; now apply initial_state_Inv).
  destruct (dense_graph_sizes (cost_model cfg) A B scale) as [En Em].
  rewrite <- Eg in En, Em.
  split; [intros i j; apply plan_at_table_nonneg; exact (@inv_nonneg g last HI)|].
  split; [|split].
  - intros i Hi. rewrite <- En in Hi.
    rewrite (outflow_table (n_sources g) (n_sinks g) (flow last) i Hi).
    rewrite (@inv_rows g last HI i Hi), Eg. now rewrite dense_graph_supply.
  - intros j Hj. rewrite <- Em in Hj.
    rewrite (inflow_table (n_sources g) (n_sinks g) (flow last) j Hj).
    rewrite (@inv_cols g last HI j Hj), Eg. now apply dense_graph_demand.
  - intros k Hk. rewrite total_cost_table. unfold last.
    apply state_after_cost_le; [exact Hk|now apply initial_state_Inv].
Qed.

(** Four cells of the plane against themselves with a cap of one pivot:
    the error carries a flow that ships every mass and costs no more than
    the initial one. *)
Lemma iteration_cap_raises_witness :
  exists best,
    solve_transport (config_of 1 0) four_cells four_cells
    = Raise (NonConvergenceError best)
    /\ (forall i, (i < List.length four_cells)%nat ->
          outflow best i == mass four_cells i)
    /\ total_cost (arc_cost four_cells_graph) best
       <= flow_cost (arc_cost four_cells_graph)
            (n_sources four_cells_graph) (n_sinks four_cells_graph)
            (flow (initial_state four_cells_graph)).
Proof.
  destruct (iteration_cap_raises (config_of 1 0) four_cells four_cells
              four_cells_graph eq_refl)
    as (best & _ & Hs & _ & _ & _ & Hv).
  - intros k Hk K. apply entering_arc_none in K.
    assert (k = 0%nat) as -> by (simpl in Hk; lia).
    vm_compute in K. discriminate K.
  - destruct (Hv four_cells_valid four_cells_valid) as (_ & Ho & _ & Hc).
    exists best. split; [exact Hs|]. split; [exact Ho|].
    exact (Hc 0%nat (Nat.le_0_l _)).
Defined.

End TransportFacts.

(* ===================================================================== *)
(** * More facts about [setup.py] *)
(* ===================================================================== *)

Module SetupExtra.
Import Setup BuildExt SetupFacts.

Unset Implicit Arguments.

Local Open Scope string_scope.

(** ** The scan of [sys.argv] *)

(** Either no argument matches, or there is a last one that does. *)
Lemma last_match_split (argv : list string) :
  Forall not_eigen argv
  \/ exists pre a post,
       argv = (pre ++ a :: post)%list
       /\ is_eigen_arg a = true /\ Forall not_eigen post.
Proof.
  induction argv as [|x argv IH].
  - left. constructor.
  - destruct IH as [H|(pre & a & post & -> & Ha & Hp)].
    + destruct (is_eigen_arg x) eqn:E.
      * right. exists [], x, argv. auto.
      * left. constructor; assumption.
    + right. exists (x :: pre), a, post. auto.
Qed.

Lemma parse_no_match argv :
  Forall not_eigen argv -> parse_eigen_option argv = Some (argv, "").
Proof.
  intros H. unfold parse_eigen_option, scan_argv, enumerate.
  rewrite scan_no_match by assumption. reflexivity.
Qed.

Lemma parse_last_match pre a post :
  is_eigen_arg a = true -> Forall not_eigen post ->
  parse_eigen_option (pre ++ a :: post)%list
  = Some ((pre ++ post)%list, py_suffix 6 a).
Proof.
  intros Ha Hp. unfold parse_eigen_option, scan_argv, enumerate.
  rewrite scan_last_match by assumption. rewrite Z.add_0_l.
  destruct (Z.gtb_spec (Z.of_nat (List.length pre)) (-1)) as [_|H]; [|lia].
  rewrite py_del_middle. reflexivity.
Qed.

Lemma existsb_not_eigen l :
  Forall not_eigen l -> existsb is_eigen_arg l = false.
Proof.
  induction 1 as [|x l Hx _ IH]; simpl; [reflexivity|].
  unfold not_eigen in Hx. now rewrite Hx.
Qed.

Lemma filter_not_eigen l :
  Forall not_eigen l ->
  filter is_eigen_arg l = []
  /\ filter (fun a => negb (is_eigen_arg a)) l = l.
Proof.
  induction 1 as [|x l Hx _ [IH1 IH2]]; simpl; [auto|].
  unfold not_eigen in Hx. rewrite Hx. simpl. rewrite IH1, IH2. auto.
Qed.

(** X1. The deletion never raises [IndexError]: for every [sys.argv] the
    block ends normally, and the new [sys.argv] is one argument shorter
    when some argument starts with "eigen" and as long as before
    otherwise. *)
Theorem eigen_option_never_raises (argv : list string) :
  exists argv' eigen_usr_include,
    parse_eigen_option argv = Some (argv', eigen_usr_include)
    /\ List.length argv'
       = (List.length argv
          - (if existsb is_eigen_arg argv then 1 else 0))%nat.
Proof.
  destruct (last_match_split argv) as [H|(pre & a & post & -> & Ha & Hp)].
  - exists argv, "". split; [now apply parse_no_match|].
    rewrite existsb_not_eigen by assumption. lia.
  - exists (pre ++ post)%list, (py_suffix 6 a).
    split; [now apply parse_last_match|].
    rewrite existsb_app. simpl. rewrite Ha, orb_true_r.
    rewrite !length_app. simpl. lia.
Qed.

(** X2. The arguments that do not start with "eigen" all stay, in their
    order, and of those that do exactly one goes: a command line with two
    of them still holds one afterwards. *)
Theorem eigen_option_keeps_other_arguments
  (argv argv' : list string) (eigen_usr_include : string) :
  parse_eigen_option argv = Some (argv', eigen_usr_include) ->
  filter (fun a => negb (is_eigen_arg a)) argv'
  = filter (fun a => negb (is_eigen_arg a)) argv
  /\ List.length (filter is_eigen_arg argv')
     = Nat.pred (List.length (filter is_eigen_arg argv)).
Proof.
  destruct (last_match_split argv) as [H|(pre & a & post & -> & Ha & Hp)].
  - rewrite parse_no_match by assumption. intros E. inversion E; subst.
    split; [reflexivity|].
    now rewrite (proj1 (filter_not_eigen argv' H)).
  - rewrite parse_last_match by assumption. intros E. inversion E; subst.
    rewrite !filter_app. simpl. rewrite Ha. simpl.
    split; [reflexivity|]. rewrite !length_app. simpl. lia.
Qed.

Lemma eigen_option_keeps_other_arguments_witness :
  filter (fun a => negb (is_eigen_arg a))
         ["setup.py"; "eigen=/usr/a"; "build_ext"; "install"]
  = filter (fun a => negb (is_eigen_arg a))
           ["setup.py"; "eigen=/usr/a"; "build_ext"; "eigen=/opt/eigen";
            "install"]
  /\ List.length (filter is_eigen_arg
                    ["setup.py"; "eigen=/usr/a"; "build_ext"; "install"])
     = Nat.pred (List.length
                   (filter is_eigen_arg
                      ["setup.py"; "eigen=/usr/a"; "build_ext";
                       "eigen=/opt/eigen"; "install"])).
Proof.
  apply (eigen_option_keeps_other_arguments
           ["setup.py"; "eigen=/usr/a"; "build_ext"; "eigen=/opt/eigen";
            "install"]
           ["setup.py"; "eigen=/usr/a"; "build_ext"; "install"]
           "/opt/eigen").
  reflexivity.
Defined.

(** ** [get_eigen_include] *)

Lemma append_empty (a b : string) : a ++ b = "" -> a = "" /\ b = "".
Proof. destruct a; simpl; [auto|discriminate]. Qed.

Lemma join_step_nonempty path b : b <> "" -> join_step path b <> "".
Proof.
  intros Hb. unfold join_step.
  destruct (startswith_sep b); [exact Hb|].
  destruct (String.eqb path "" || endswith_sep path).
  - intros E. apply append_empty in E. tauto.
  - intros E. apply append_empty in E. destruct E as [_ E]. discriminate.
Qed.

Lemma possible_path_cons env propose_path :
  possible_path env propose_path
  = propose_path :: tl (possible_path env "").
Proof.
  unfold possible_path. destruct (environ_HOME env); reflexivity.
Qed.

Lemma eigen_loop_sound env paths :
  eigen_loop env paths <> "" ->
  isdir env (os_path_join (eigen_loop env paths) ["Eigen"]) = true.
Proof.
  induction paths as [|path rest IH]; cbn [eigen_loop]; [congruence|].
  destruct (isdir env (os_path_join path ["Eigen"])) eqn:E1; [auto|].
  destruct (isdir env (os_path_join path ["eigen3"; "Eigen"])) eqn:E2;
    [|exact IH].
  intros _. exact E2.
Qed.

Lemma eigen_loop_empty env paths :
  Forall (fun p => p <> "") paths ->
  (eigen_loop env paths = "" <-> Forall (no_eigen_in env) paths).
Proof.
  induction 1 as [|path rest Hp _ IH]; cbn [eigen_loop].
  - split; [constructor|reflexivity].
  - 
    destruct (isdir env (os_path_join path ["Eigen"])) eqn:E1.
    + split; [congruence|]. intros H. inversion H as [|? ? [K _] _]; subst.
      unfold has_Eigen in K. congruence.
    + destruct (isdir env (os_path_join path ["eigen3"; "Eigen"])) eqn:E2.
      * split.
        -- intros K. exfalso. revert K.
           apply (join_step_nonempty path "eigen3"). discriminate.
        -- intros H. inversion H as [|? ? [_ K] _]; subst.
           unfold has_eigen3_Eigen in K. congruence.
      * rewrite IH. split.
        -- intros H. constructor; [|exact H]. split; assumption.
        -- intros H. now inversion H.
Qed.

(** X3. A non-empty result of [get_eigen_include] is a directory that
    holds [Eigen]: joining "Eigen" to it names a directory, also when the
    result is the [eigen3] folder of a candidate. *)
Theorem eigen_include_sound (env : Env) (propose_path : string) :
  get_eigen_include env propose_path <> "" ->
  isdir env (os_path_join (get_eigen_include env propose_path) ["Eigen"])
  = true.
Proof. apply eigen_loop_sound. Qed.

Lemma eigen_include_sound_witness :
  isdir sample_env
    (os_path_join (get_eigen_include sample_env "/tmp/e") ["Eigen"])
  = true.
Proof.
  apply (eigen_include_sound sample_env "/tmp/e"). discriminate.
Defined.

(** X4. When neither the proposed path nor the parent of the sysconfig
    include directory is the empty string, the empty result means exactly
    that no candidate holds [Eigen], directly or under [eigen3]. *)
Theorem eigen_include_empty_iff (env : Env) (propose_path : string) :
  propose_path <> "" ->
  os_path_dirname (sysconfig_include env) <> "" ->
  (get_eigen_include env propose_path = ""
   <-> Forall (no_eigen_in env) (possible_path env propose_path)).
Proof.
  intros Hp Hd. apply eigen_loop_empty.
  unfold possible_path.
  destruct (environ_HOME env) as [home|];
    repeat (constructor; try assumption); try discriminate.
  apply join_step_nonempty. discriminate.
Qed.

Lemma eigen_include_empty_iff_witness :
  get_eigen_include sample_env "/tmp/e" = ""
  <-> Forall (no_eigen_in sample_env) (possible_path sample_env "/tmp/e").
Proof.
  apply (eigen_include_empty_iff sample_env "/tmp/e"); discriminate.
Defined.

(** X5. With the default proposed path, a directory [Eigen] relative to
    the working directory makes the function return the empty string: a
    find that cannot be told from a failure. *)
Theorem eigen_include_relative_hit (env : Env) :
  isdir env "Eigen" = true -> get_eigen_include env "" = "".
Proof.
  intros H. unfold get_eigen_include. rewrite possible_path_cons.
  cbn [eigen_loop os_path_join fold_left join_step startswith_sep].
  cbn. rewrite H. reflexivity.
Qed.

Lemma eigen_include_relative_hit_witness :
  get_eigen_include
    {| isdir := fun p => String.eqb p "Eigen";
       sysconfig_include := "/opt/py/include/python3.11";
       environ_HOME := None |} ""
  = "".
Proof.
  apply (eigen_include_relative_hit
           {| isdir := fun p => String.eqb p "Eigen";
              sysconfig_include := "/opt/py/include/python3.11";
              environ_HOME := None |}).
  reflexivity.
Defined.

(** X6. A proposed path without [Eigen] is passed over in silence: two
    such paths give the same result, that of the system candidates. *)
Theorem bad_user_path_ignored (env : Env) (p p' : string) :
  no_eigen_in env p -> no_eigen_in env p' ->
  get_eigen_include env p = get_eigen_include env p'.
Proof.
  intros H H'. unfold get_eigen_include.
  rewrite (possible_path_cons env p), (possible_path_cons env p').
  change (p :: tl (possible_path env ""))
    with ([p] ++ tl (possible_path env ""))%list.
  change (p' :: tl (possible_path env ""))
    with ([p'] ++ tl (possible_path env ""))%list.
  rewrite !eigen_loop_skip by (constructor; [assumption|constructor]).
  reflexivity.
Qed.

Lemma bad_user_path_ignored_witness :
  get_eigen_include sample_env "/tmp/e"
  = get_eigen_include sample_env "/nowhere".
Proof.
  apply (bad_user_path_ignored sample_env "/tmp/e" "/nowhere");
    split; reflexivity.
Defined.

(** X7. From the command line to the extension: when the last argument
    that starts with "eigen" is "eigen=P" and [P/Eigen] is a directory,
    the argument is taken off [sys.argv] and [P] is the first include
    directory of the extension. *)
Theorem script_uses_user_path (env : Env) (here P : string)
  (pre post : list string) :
  Forall not_eigen post -> has_Eigen env P = true ->
  exists ext,
    script_ext_modules env here (pre ++ (("eigen=" ++ P)%string :: post))%list
    = Some ((pre ++ post)%list, [ext])
    /\ ext_include_dirs ext
       = [ IncludePath P; get_pybind_include false; get_pybind_include true ].
Proof.
  intros Hp HP. unfold script_ext_modules.
  rewrite (parse_last_match pre ("eigen=" ++ P) post eq_refl Hp).
  change (py_suffix 6 ("eigen=" ++ P)) with (of_points (code_points P)).
  rewrite code_points_of.
  eexists. split; [reflexivity|]. cbn [ext_include_dirs].
  assert (E : get_eigen_include env P = P).
  { unfold get_eigen_include. rewrite possible_path_cons.
    unfold has_Eigen in HP. cbn [eigen_loop]. now rewrite HP. }
  now rewrite E.
Qed.

Lemma script_uses_user_path_witness :
  exists ext,
    script_ext_modules sample_env "/src"
      ["setup.py"; "eigen=/home/u/.local/include"; "install"]
    = Some (["setup.py"; "install"], [ext])
    /\ ext_include_dirs ext
       = [ IncludePath "/home/u/.local/include";
           get_pybind_include false; get_pybind_include true ].
Proof.
  apply (script_uses_user_path sample_env "/src" "/home/u/.local/include"
           ["setup.py"] ["install"]).
  - repeat constructor.
  - reflexivity.
Defined.


(** ** The dict of the class *)

Lemma dict_get_update_same d k f :
  dict_get (dict_update d k f) k = option_map f (dict_get d k).
Proof.
  induction d as [|[k' v] d IH]; simpl; [reflexivity|].
  destruct (String.eqb k' k) eqn:E; simpl; rewrite E; [reflexivity|exact IH].
Qed.

Lemma dict_get_update_other d k k' f :
  k' <> k -> dict_get (dict_update d k f) k' = dict_get d k'.
Proof.
  intros Hne. induction d as [|[k0 v] d IH]; simpl; [reflexivity|].
  destruct (String.eqb k0 k) eqn:E; simpl.
  - apply String.eqb_eq in E. subst k0.
    assert (String.eqb k k' = false) as ->
      by (apply String.eqb_neq; congruence).
    reflexivity.
  - destruct (String.eqb k0 k'); [reflexivity|exact IH].
Qed.

Lemma dict_update_keys d k f : map fst (dict_update d k f) = map fst d.
Proof.
  induction d as [|[k' v] d IH]; simpl; [reflexivity|].
  destruct (String.eqb k' k); simpl; [reflexivity|now rewrite IH].
Qed.

(** ** The flag of the standard *)

(** X8. [cpp_flag] returns only a flag the compiler accepts, one of the
    two standards; it raises exactly when the compiler rejects both;
    "-std=c++11" is tried only after "-std=c++14" was rejected, and the
    options of the class are not touched. *)
Theorem cpp_flag_sound (compiler : Compiler) (s : Store) :
  (forall flag, fst (cpp_flag compiler s) = inl flag ->
     compile_ok compiler flag = true
     /\ (flag = "-std=c++14"
         \/ flag = "-std=c++11"
            /\ compile_ok compiler "-std=c++14" = false))
  /\ ((exists e, fst (cpp_flag compiler s) = inr e)
      <-> compile_ok compiler "-std=c++14" = false
          /\ compile_ok compiler "-std=c++11" = false)
  /\ probed (snd (cpp_flag compiler s))
     = (probed s ++ "-std=c++14"
          :: (if compile_ok compiler "-std=c++14" then []
              else ["-std=c++11"]))%list
  /\ c_opts (snd (cpp_flag compiler s)) = c_opts s.
Proof.
  unfold cpp_flag, has_flag.
  destruct (compile_ok compiler "-std=c++14") eqn:E14;
    [|destruct (compile_ok compiler "-std=c++11") eqn:E11];
    cbn [fst snd probed c_opts fresh]; rewrite <- ?app_assoc; cbn [app];
    (split; [intros flag Hf; inversion Hf; subst; auto|]);
    (split; [|split; reflexivity]).
  - split; [intros [e He]; discriminate He|intros [K _]; discriminate K].
  - split; [intros [e He]; discriminate He|intros [_ K]; discriminate K].
  - split; [auto|intros _; eexists; reflexivity].
Qed.

(** ** A call of [build_extensions] *)

Section Build.

Variable compiler : Compiler.
Variable version : string.
Variable extensions : list Extension.

(** One call on a unix compiler that accepts a standard, from any
    store. *)
Lemma unix_call (s0 : Store) (base : list string) (flag : string) :
  compiler_type compiler = "unix" ->
  dict_get (c_opts s0) "unix" = Some base ->
  standard_of compiler = Some flag ->
  fst (build_extensions compiler version extensions s0)
  = inl (map (fun ext =>
                (ext, (base ++ unix_added compiler version flag)%list))
             extensions)
  /\ dict_get (c_opts (snd (build_extensions compiler version extensions s0)))
       "unix"
     = Some (base ++ unix_added compiler version flag)%list.
Proof.
  intros Hct Hb Hstd. unfold build_extensions, get_opts.
  rewrite Hct, Hb. cbn [String.eqb Ascii.eqb Bool.eqb].
  unfold cpp_flag, has_flag, unix_added, standard_of in *.
  fold (unix_define version).
  destruct (compile_ok compiler "-std=c++14") eqn:E14;
    [|destruct (compile_ok compiler "-std=c++11") eqn:E11; [|discriminate]];
    inversion Hstd; subst flag;
    destruct (compile_ok compiler "-fvisibility=hidden") eqn:Ev;
    cbn [fst snd append contents c_opts fresh probed];
    rewrite !dict_get_update_same, Hb; cbn [option_map];
    rewrite <- !app_assoc; cbn [app]; split; reflexivity.
Qed.

Variable s : Store.

Let run := build_extensions compiler version extensions s.

(** X9. On a unix compiler that accepts a C++ standard, every extension
    gets the options stored for "unix" followed by "-O3", the version
    define, the standard flag ("-std=c++14" whenever it is accepted,
    "-std=c++11" only otherwise) and, if accepted, "-fvisibility=hidden";
    the list stored in the class for "unix" has become that very list. *)
Theorem build_unix_args (base : list string) (flag : string) :
  compiler_type compiler = "unix" ->
  dict_get (c_opts s) "unix" = Some base ->
  standard_of compiler = Some flag ->
  fst run
  = inl (map (fun ext =>
                (ext, (base ++ unix_added compiler version flag)%list))
             extensions)
  /\ dict_get (c_opts (snd run)) "unix"
     = Some (base ++ unix_added compiler version flag)%list
  /\ (flag = "-std=c++14" <-> compile_ok compiler "-std=c++14" = true).
Proof.
  intros Hct Hb Hstd.
  destruct (unix_call s base flag Hct Hb Hstd) as [H1 H2].
  split; [exact H1|split; [exact H2|]].
  unfold standard_of in Hstd.
  destruct (compile_ok compiler "-std=c++14").
  - inversion Hstd. tauto.
  - destruct (compile_ok compiler "-std=c++11"); [|discriminate].
    inversion Hstd. split; intros K; discriminate K.
Qed.

(** X10. On a unix compiler that accepts neither standard the call raises
    [RuntimeError] and no extension gets its options, yet the list of the
    class for "unix" has already grown by "-O3" and the version define,
    and both standards were tried, C++14 first. *)
Theorem build_unsupported_compiler (base : list string) :
  compiler_type compiler = "unix" ->
  dict_get (c_opts s) "unix" = Some base ->
  standard_of compiler = None ->
  fst run
  = inr (RuntimeError
           "Unsupported compiler -- at least C++11 support is needed!")
  /\ dict_get (c_opts (snd run)) "unix"
     = Some (base ++ ["-O3"; unix_define version])%list
  /\ probed (snd run) = (probed s ++ ["-std=c++14"; "-std=c++11"])%list.
Proof.
  intros Hct Hb Hstd. unfold run, build_extensions, get_opts.
  rewrite Hct, Hb. cbn [String.eqb Ascii.eqb Bool.eqb].
  unfold cpp_flag, has_flag, standard_of in *.
  fold (unix_define version).
  destruct (compile_ok compiler "-std=c++14"); [discriminate|].
  destruct (compile_ok compiler "-std=c++11"); [discriminate|].
  cbn [fst snd append contents c_opts fresh probed].
  rewrite !dict_get_update_same, Hb. cbn [option_map].
  rewrite <- !app_assoc. cbn [app]. auto.
Qed.

(** X11. On an msvc compiler every extension gets the options stored for
    "msvc" followed by "-O3" and the version define with its escaped
    quotes; the compiler is not tried on any flag. *)
Theorem build_msvc_args (base : list string) :
  compiler_type compiler = "msvc" ->
  dict_get (c_opts s) "msvc" = Some base ->
  fst run
  = inl (map (fun ext => (ext, (base ++ ["-O3"; msvc_define version])%list))
             extensions)
  /\ dict_get (c_opts (snd run)) "msvc"
     = Some (base ++ ["-O3"; msvc_define version])%list
  /\ probed (snd run) = probed s.
Proof.
  intros Hct Hb. unfold run, build_extensions, get_opts.
  rewrite Hct, Hb. cbn [String.eqb Ascii.eqb Bool.eqb].
  fold (msvc_define version).
  cbn [fst snd append contents c_opts fresh probed].
  rewrite !dict_get_update_same, Hb. cbn [option_map].
  rewrite <- !app_assoc. cbn [app]. auto.
Qed.

(** X12. For a compiler type the class has no entry for (and that is
    neither "unix" nor "msvc") the options are exactly "-O3", whatever the
    class holds; the dict of the class is left as it was and the compiler
    is not tried on any flag. *)
Theorem build_other_compiler :
  dict_get (c_opts s) (compiler_type compiler) = None ->
  compiler_type compiler <> "unix" -> compiler_type compiler <> "msvc" ->
  fst run = inl (map (fun ext => (ext, ["-O3"])) extensions)
  /\ c_opts (snd run) = c_opts s
  /\ probed (snd run) = probed s.
Proof.
  intros Hn Hu Hm. unfold run, build_extensions, get_opts. rewrite Hn.
  apply String.eqb_neq in Hu. apply String.eqb_neq in Hm.
  rewrite Hu, Hm. cbn [fst snd append contents c_opts fresh probed app].
  auto.
Qed.

(** X13. Whatever the compiler and the outcome, a call neither adds nor
    removes a key of the dict of the class, leaves the entries of the
    other compiler types alone, and only appends to the entry of its own
    type, "-O3" first. *)
Theorem build_keeps_other_entries :
  map fst (c_opts (snd run)) = map fst (c_opts s)
  /\ (forall k, k <> compiler_type compiler ->
                dict_get (c_opts (snd run)) k = dict_get (c_opts s) k)
  /\ (forall l, dict_get (c_opts s) (compiler_type compiler) = Some l ->
                exists added,
                  dict_get (c_opts (snd run)) (compiler_type compiler)
                  = Some (l ++ "-O3" :: added)%list).
Proof.
  unfold run, build_extensions, get_opts, cpp_flag, has_flag.
  destruct (dict_get (c_opts s) (compiler_type compiler)) as [l0|] eqn:Hg.
  - destruct (String.eqb (compiler_type compiler) "unix");
      [|destruct (String.eqb (compiler_type compiler) "msvc")];
      repeat match goal with
             | |- context [if compile_ok compiler ?f then _ else _] =>
                 destruct (compile_ok compiler f)
             end;
      cbn [fst snd append contents c_opts fresh probed];
      (split; [now rewrite !dict_update_keys|]);
      (split; [intros k Hk; now rewrite !dict_get_update_other by exact Hk|]);
      intros l Hl; inversion Hl; subst l0;
      rewrite !dict_get_update_same, Hg; cbn [option_map];
      rewrite <- ?app_assoc; cbn [app]; eexists; reflexivity.
  - destruct (String.eqb (compiler_type compiler) "unix");
      [|destruct (String.eqb (compiler_type compiler) "msvc")];
      repeat match goal with
             | |- context [if compile_ok compiler ?f then _ else _] =>
                 destruct (compile_ok compiler f)
             end;
      cbn [fst snd append contents c_opts fresh probed];
      (split; [reflexivity|]); (split; [reflexivity|]);
      intros l Hl; discriminate Hl.
Qed.

(** X14. The options pile up from one call to the next: [opts] is the
    list of the class itself, so a second call on the same unix compiler
    hands every extension the options of the first call followed by the
    same four (or three) options once more. *)
Theorem build_twice_accumulates (base : list string) (flag : string) :
  compiler_type compiler = "unix" ->
  dict_get (c_opts s) "unix" = Some base ->
  standard_of compiler = Some flag ->
  fst (build_extensions compiler version extensions (snd run))
  = inl (map (fun ext =>
                (ext, (base ++ unix_added compiler version flag
                            ++ unix_added compiler version flag)%list))
             extensions).
Proof.
  intros Hct Hb Hstd.
  destruct (unix_call s base flag Hct Hb Hstd) as [_ H2].
  destruct (unix_call (snd run) _ flag Hct H2 Hstd) as [H3 _].
  rewrite H3. now rewrite <- app_assoc.
Qed.

End Build.

(** X15. The first call after the class body has run, on a unix compiler
    that accepts a standard: on darwin the two options of the class body
    come first, elsewhere the list starts with "-O3". *)
Theorem first_build_args (platform : string) (compiler : Compiler)
  (version : string) (extensions : list Extension) (flag : string) :
  compiler_type compiler = "unix" ->
  standard_of compiler = Some flag ->
  fst (build_extensions compiler version extensions (class_store platform))
  = inl (map (fun ext =>
                (ext,
                 ((if String.eqb platform "darwin"
                   then ["-stdlib=libc++"; "-mmacosx-version-min=10.7"]
                   else [])
                  ++ unix_added compiler version flag)%list))
             extensions).
Proof.
  intros Hct Hstd.
  refine (proj1 (unix_call compiler version extensions (class_store platform)
                   _ flag Hct _ Hstd)).
  unfold class_store, class_c_opts. cbn [c_opts].
  destruct (String.eqb platform "darwin"); reflexivity.
Qed.

(** *** The theorems at work *)

Lemma cpp_flag_sound_witness :
  compile_ok (compiler_accepting "unix" ["-std=c++11"]) "-std=c++11" = true
  /\ ("-std=c++11" = "-std=c++14"
      \/ "-std=c++11" = "-std=c++11"
         /\ compile_ok (compiler_accepting "unix" ["-std=c++11"]) "-std=c++14"
            = false).
Proof.
  apply (proj1 (cpp_flag_sound (compiler_accepting "unix" ["-std=c++11"])
                  (class_store "linux")) "-std=c++11").
  reflexivity.
Defined.

Lemma build_unix_args_witness :
  fst (build_extensions
         (compiler_accepting "unix" ["-std=c++11"; "-fvisibility=hidden"])
         "0.4.0" (ext_modules sample_env "/src" "") (class_store "darwin"))
  = inl (map (fun ext =>
                (ext,
                 ["-stdlib=libc++"; "-mmacosx-version-min=10.7"; "-O3";
                  unix_define "0.4.0"; "-std=c++11"; "-fvisibility=hidden"]))
             (ext_modules sample_env "/src" "")).
Proof.
  apply (build_unix_args
           (compiler_accepting "unix" ["-std=c++11"; "-fvisibility=hidden"])
           "0.4.0" (ext_modules sample_env "/src" "") (class_store "darwin")
           ["-stdlib=libc++"; "-mmacosx-version-min=10.7"] "-std=c++11");
    reflexivity.
Defined.

Lemma build_unsupported_compiler_witness :
  fst (build_extensions (compiler_accepting "unix" ["-fvisibility=hidden"])
         "0.4.0" (ext_modules sample_env "/src" "") (class_store "linux"))
  = inr (RuntimeError
           "Unsupported compiler -- at least C++11 support is needed!")
  /\ dict_get
       (c_opts
          (snd (build_extensions
                  (compiler_accepting "unix" ["-fvisibility=hidden"])
                  "0.4.0" (ext_modules sample_env "/src" "")
                  (class_store "linux"))))
       "unix"
     = Some ["-O3"; unix_define "0.4.0"].
Proof.
  destruct (build_unsupported_compiler
              (compiler_accepting "unix" ["-fvisibility=hidden"])
              "0.4.0" (ext_modules sample_env "/src" "") (class_store "linux")
              [] eq_refl eq_refl eq_refl) as [H1 [H2 _]].
  split; [exact H1|exact H2].
Defined.

Lemma build_msvc_args_witness :
  fst (build_extensions (compiler_accepting "msvc" []) "0.4.0"
         (ext_modules sample_env "/src" "") (class_store "win32"))
  = inl (map (fun ext => (ext, ["/EHsc"; "-O3"; msvc_define "0.4.0"]))
             (ext_modules sample_env "/src" "")).
Proof.
  apply (build_msvc_args (compiler_accepting "msvc" []) "0.4.0"
           (ext_modules sample_env "/src" "") (class_store "win32")
           ["/EHsc"]); reflexivity.
Defined.

Lemma build_other_compiler_witness :
  fst (build_extensions (compiler_accepting "mingw32" ["-std=c++14"]) "0.4.0"
         (ext_modules sample_env "/src" "") (class_store "win32"))
  = inl (map (fun ext => (ext, ["-O3"])) (ext_modules sample_env "/src" "")).
Proof.
  apply (build_other_compiler (compiler_accepting "mingw32" ["-std=c++14"])
           "0.4.0" (ext_modules sample_env "/src" "") (class_store "win32"));
    [reflexivity|discriminate|discriminate].
Defined.

Lemma build_keeps_other_entries_witness :
  dict_get
    (c_opts
       (snd (build_extensions (compiler_accepting "unix" ["-std=c++14"])
               "0.4.0" (ext_modules sample_env "/src" "")
               (class_store "linux"))))
    "msvc"
  = Some ["/EHsc"].
Proof.
  apply (proj1 (proj2 (build_keeps_other_entries
                         (compiler_accepting "unix" ["-std=c++14"])
                         "0.4.0" (ext_modules sample_env "/src" "")
                         (class_store "linux"))) "msvc").
  discriminate.
Defined.

Lemma build_twice_accumulates_witness :
  fst (build_extensions (compiler_accepting "unix" ["-std=c++14"]) "0.4.0"
         (ext_modules sample_env "/src" "")
         (snd (build_extensions (compiler_accepting "unix" ["-std=c++14"])
                 "0.4.0" (ext_modules sample_env "/src" "")
                 (class_store "linux"))))
  = inl (map (fun ext =>
                (ext,
                 ["-O3"; unix_define "0.4.0"; "-std=c++14";
                  "-O3"; unix_define "0.4.0"; "-std=c++14"]))
             (ext_modules sample_env "/src" "")).
Proof.
  apply (build_twice_accumulates (compiler_accepting "unix" ["-std=c++14"])
           "0.4.0" (ext_modules sample_env "/src" "") (class_store "linux")
           [] "-std=c++14"); reflexivity.
Defined.

Lemma first_build_args_witness :
  fst (build_extensions (compiler_accepting "unix" ["-std=c++14"]) "0.4.0"
         (ext_modules sample_env "/src" "") (class_store "darwin"))
  = inl (map (fun ext =>
                (ext,
                 ["-stdlib=libc++"; "-mmacosx-version-min=10.7"; "-O3";
                  unix_define "0.4.0"; "-std=c++14"]))
             (ext_modules sample_env "/src" "")).
Proof.
  apply (first_build_args "darwin" (compiler_accepting "unix" ["-std=c++14"])
           "0.4.0" (ext_modules sample_env "/src" "") "-std=c++14");
    reflexivity.
Defined.

End SetupExtra.
